(** * didYouMean.js 1.0.0: the distance engine and the matcher

    A shallow embedding of [src/didYouMean-1.0.0.js].  Strings are
    sequences of UTF-16 code units; JavaScript values, configuration,
    exceptions and the mutable comparison grid are written out
    explicitly.  Where the behaviour of the code rests on a builtin that
    is not modelled, the embedding says so by the outcome [Unmodelled]
    and claims nothing. *)

From Stdlib Require Import List String Ascii Arith Lia Bool ZArith NArith QArith.
Import ListNotations.

Local Open Scope string_scope.
Local Open Scope list_scope.
Local Open Scope nat_scope.

(** ** Strings *)

(** A JavaScript string is a sequence of 16-bit code units; its [length]
    is the number of them. *)
Definition code_unit : Type := N.

Definition jsstring : Type := list code_unit.

(** The code units of a text written in ASCII. *)
Definition js (s : string) : jsstring :=
  map N_of_ascii (list_ascii_of_string s).

(** [s == t] on two strings. *)
Fixpoint jsstring_eqb (s t : jsstring) : bool :=
  match s, t with
  | [], [] => true
  | x :: s', y :: t' => N.eqb x y && jsstring_eqb s' t'
  | _, _ => false
  end.

(** ** JavaScript arrays of the grid *)

Section Arrays.
Context {A : Type}.
Variable hole : A.

(** [arr[k]]: reads outside the array yield the hole. *)
Definition array_get (arr : list A) (k : nat) : A := nth k arr hole.

(** [arr[k] = v]: overwrites inside the array, extends it at its end and
    leaves holes when [k] lies further out. *)
Fixpoint array_set (arr : list A) (k : nat) (v : A) : list A :=
  match k, arr with
  | O, [] => [v]
  | O, _ :: rest => v :: rest
  | S k', [] => hole :: array_set [] k' v
  | S k', x :: rest => x :: array_set rest k' v
  end.
End Arrays.

Definition matrix_t := list (list nat).

(** [matrix[i][j]] *)
Definition cell (matrix : matrix_t) (i j : nat) : nat :=
  array_get 0 (array_get [] matrix i) j.

(** [matrix[i][j] = v] *)
Definition set_cell (matrix : matrix_t) (i j v : nat) : matrix_t :=
  array_set [] matrix i (array_set 0 (array_get [] matrix i) j v).

(** [for (i = lo; i <= hi; i++) body] as a state transformer. *)
Definition for_upto {S : Type} (lo hi : nat) (body : S -> nat -> S) (s : S) : S :=
  fold_left body (seq lo (Datatypes.S hi - lo)) s.

(** [s.charAt(k)]: the one-unit string at index [k], the empty string
    out of range. *)
Definition charAt (s : jsstring) (k : nat) : jsstring :=
  match nth_error s k with
  | Some c => [c]
  | None => []
  end.

(** ** The distance engine (source lines 177-209) *)

Definition fill_cell (a b : jsstring) (i : nat) (matrix : matrix_t) (j : nat) : matrix_t :=
  if jsstring_eqb (charAt b (i - 1)) (charAt a (j - 1)) then
    set_cell matrix i j (cell matrix (i - 1) (j - 1))
  else
    set_cell matrix i j
      (Nat.min (cell matrix (i - 1) (j - 1) + 1)
         (Nat.min (cell matrix i (j - 1) + 1)
            (cell matrix (i - 1) j + 1))).

Definition getEditDistance_matrix (a b : jsstring) : matrix_t :=
  let matrix : matrix_t := [] in
  let matrix := for_upto 0 (List.length b)
                  (fun m i => array_set [] m i [i]) matrix in
  let matrix := for_upto 0 (List.length a)
                  (fun m j => set_cell m 0 j j) matrix in
  for_upto 1 (List.length b)
    (fun m i => for_upto 1 (List.length a) (fill_cell a b i) m) matrix.

Definition getEditDistance (a b : jsstring) : nat :=
  if Nat.eqb (List.length a) 0 then List.length b
  else if Nat.eqb (List.length b) 0 then List.length a
  else cell (getEditDistance_matrix a b) (List.length b) (List.length a).

(** ** JavaScript values, exceptions and the configuration *)

(** The values a list can hold: primitives, plain data objects and
    arrays.  A record is given by its own properties, the first binding
    of a name being the one read; its prototype is [Object.prototype].
    Functions are not values of the model. *)
#[warnings="-register-all"]
Inductive value : Type :=
| VUndefined
| VNull
| VBool (b : bool)
| VNum (q : Q)
| VStr (s : jsstring)
| VObj (props : list (jsstring * value))
| VArr (elems : list value).

Inductive error : Type := TypeError | ReferenceError.

(** The outcome of a piece of code: a value, an exception, or
    [Unmodelled] where the code goes through a builtin the embedding
    does not model (a property inherited from a prototype, the
    conversion of a non-empty string to a number). *)
Inductive result (A : Type) : Type :=
| Ok (a : A)
| Throw (e : error)
| Unmodelled.

Arguments Ok {A} a.
Arguments Throw {A} e.
Arguments Unmodelled {A}.

Definition bind {A B : Type} (c : result A) (k : A -> result B) : result B :=
  match c with
  | Ok a => k a
  | Throw e => Throw e
  | Unmodelled => Unmodelled
  end.

Notation "x <- c ;; k" := (bind c (fun x => k))
  (at level 61, c at next level, right associativity).

(** JavaScript truthiness: what [if (v)] and [v || ...] test. *)
Definition truthy (v : value) : bool :=
  match v with
  | VUndefined | VNull => false
  | VBool b => b
  | VNum q => negb (Qeq_bool q 0)
  | VStr s => negb (Nat.eqb (List.length s) 0)
  | VObj _ | VArr _ => true
  end.

(** The lower-case form of one code unit: the letters A-Z of Basic Latin
    and the capital letters of Latin-1 move up by 32, and U+0130 (capital
    I with dot above) becomes the two units U+0069 U+0307.  Every other
    code unit is left as it is; the cased letters beyond Latin-1 are not
    covered. *)
Definition lower_unit (c : code_unit) : jsstring :=
  if ((65 <=? c) && (c <=? 90))%N then [(c + 32)%N]
  else if ((192 <=? c) && (c <=? 222) && negb (c =? 215))%N then [(c + 32)%N]
  else if (c =? 304)%N then [105%N; 775%N]
  else [c].

(** [s.toLowerCase()].  The result can be longer than [s]. *)
Definition toLowerCase (s : jsstring) : jsstring := flat_map lower_unit s.

Fixpoint lookup (k : jsstring) (props : list (jsstring * value)) : option value :=
  match props with
  | [] => None
  | (k', v) :: rest => if jsstring_eqb k k' then Some v else lookup k rest
  end.

(** The names that every record inherits from [Object.prototype]. *)
Definition object_prototype_members : list jsstring :=
  map js ["constructor"; "hasOwnProperty"; "isPrototypeOf";
          "propertyIsEnumerable"; "toLocaleString"; "toString"; "valueOf";
          "__proto__"; "__defineGetter__"; "__defineSetter__";
          "__lookupGetter__"; "__lookupSetter__"].

(** [v[k]]: a TypeError on [undefined] and [null]; on a record its own
    binding, and [undefined] when it has none and inherits none.  What a
    record inherits, what the wrapper of a primitive provides and the
    members of an array are not modelled. *)
Definition get_prop (v : value) (k : jsstring) : result value :=
  match v with
  | VUndefined | VNull => Throw TypeError
  | VObj props =>
      match lookup k props with
      | Some x => Ok x
      | None =>
          if existsb (jsstring_eqb k) object_prototype_members then Unmodelled
          else Ok VUndefined
      end
  | VBool _ | VNum _ | VStr _ | VArr _ => Unmodelled
  end.

(** [candidate.toLowerCase()]: only strings have the method; calling what
    a number, a boolean, a record or an array has under that name
    raises. *)
Definition toLowerCase_call (v : value) : result value :=
  match v with
  | VStr s => Ok (VStr (toLowerCase s))
  | _ => Throw TypeError
  end.

(** [v == 0], the test of lines 178 and 179 on a [length].  A record is
    converted through its [valueOf] and [toString]; with the inherited
    ones it becomes a text that is no number.  An array becomes the text
    of its elements, the empty text when it has none. *)
Definition loose_eq_zero (v : value) : result bool :=
  match v with
  | VUndefined | VNull => Ok false
  | VBool b => Ok (negb b)
  | VNum q => Ok (Qeq_bool q 0)
  | VStr s => if Nat.eqb (List.length s) 0 then Ok true else Unmodelled
  | VObj props =>
      match lookup (js "valueOf") props, lookup (js "toString") props with
      | None, None => Ok false
      | _, _ => Unmodelled
      end
  | VArr elems => if Nat.eqb (List.length elems) 0 then Ok true else Unmodelled
  end.

(** [getEditDistance(a, b)] as the matcher calls it, [b] being any value.
    On a string it is the engine.  On a number, a boolean, a record or an
    array, line 179 compares [b.length] with [0]: when they are equal the
    call returns [a.length]; otherwise the loops find no row to write to,
    or no method [charAt], and a TypeError is raised.  With [a] empty
    line 178 returns [b.length], which need not be a number. *)
Definition getEditDistance_call (a : jsstring) (b : value) : result nat :=
  match b with
  | VStr s => Ok (getEditDistance a s)
  | VUndefined | VNull => Throw TypeError
  | VBool _ | VNum _ =>
      if Nat.eqb (List.length a) 0 then Unmodelled else Throw TypeError
  | VObj _ =>
      if Nat.eqb (List.length a) 0 then Unmodelled
      else
        len <- get_prop b (js "length") ;;
        zero <- loose_eq_zero len ;;
        if zero then Ok (List.length a) else Throw TypeError
  | VArr elems =>
      if Nat.eqb (List.length a) 0 then Unmodelled
      else if Nat.eqb (List.length elems) 0 then Ok (List.length a)
      else Throw TypeError
  end.

(** The options kept on the function object, with [threshold = null] as
    [None] and [returnWinningObject] by its truthiness. *)
Record config : Type := mkConfig {
  threshold : option Q;
  caseSensitive : bool;
  nullResultValue : value;
  returnWinningObject : bool
}.

Definition defaults : config :=
  {| threshold := Some (4 # 10);
     caseSensitive := false;
     nullResultValue := VNull;
     returnWinningObject := false |}.

(** ** The matcher (source lines 126-163) *)

(** The two variables the loop updates: [winner] ([None]: still
    undefined) and [winningVal] ([None]: null). *)
Record state : Type := mkState {
  winner : option value;
  winningVal : option Q
}.

Definition Qltb (x y : Q) : bool := negb (Qle_bool y x).

Definition Qnat (n : nat) : Q := inject_Z (Z.of_nat n).

(** [if (key)]: the optional third argument was given and is not empty. *)
Definition key_given (key : option jsstring) : bool :=
  match key with
  | Some k => truthy (VStr k)
  | None => false
  end.

(** Lines 141-143: the item, or its property [key] when a key is given. *)
Definition extract (key : option jsstring) (item : value) : result value :=
  match key with
  | Some k => if truthy (VStr k) then get_prop item k else Ok item
  | None => Ok item
  end.

(** Lines 141-158: one turn of the loop on [list[i] = item]. *)
Definition scan_step (cfg : config) (key : option jsstring) (str : jsstring)
    (st : state) (item : value) : result state :=
  candidate <- extract key item ;;
  if negb (truthy candidate) then Ok st
  else
    candidate <- (if negb (caseSensitive cfg) then toLowerCase_call candidate
                  else Ok candidate) ;;
    val <- getEditDistance_call str candidate ;;
    if match winningVal st with
       | None => true
       | Some best => Qltb (Qnat val) best
       end
    then Ok {| winningVal := Some (Qnat val);
               winner := Some (if key_given key && returnWinningObject cfg
                               then item else candidate) |}
    else Ok st.

(** Lines 139-159: the forward pass; an exception leaves the loop. *)
Fixpoint scan (cfg : config) (key : option jsstring) (str : jsstring)
    (items : list value) (st : state) : result state :=
  match items with
  | [] => Ok st
  | item :: rest =>
      st' <- scan_step cfg key str st item ;;
      scan cfg key str rest st'
  end.

(** [didYouMean(str, list, key)].  The input [str] is a string, as the
    header of the source documents it, or absent ([None]).  Numbers are
    rationals; [fl] stands for the rounding of the product
    [threshold * str.length] to a JavaScript number.  The last line of the
    source reads [argument], a name bound nowhere, so its right operand
    raises a ReferenceError whenever it is evaluated. *)
Definition didYouMean (fl : Q -> Q) (cfg : config) (str : option jsstring)
    (list : list value) (key : option jsstring) : result value :=
  match str with
  | None => Ok (VBool false)
  | Some str =>
      if negb (truthy (VStr str)) then Ok (VBool false)
      else
        let str := if negb (caseSensitive cfg) then toLowerCase str else str in
        let winningVal :=
          match threshold cfg with
          | None => None
          | Some t => Some (fl (t * Qnat (List.length str))%Q)
          end in
        st <- scan cfg key str list {| winner := None; winningVal := winningVal |} ;;
        match winner st with
        | Some w => if truthy w then Ok w else Throw ReferenceError
        | None => Throw ReferenceError
        end
  end.

(** Exact arithmetic, the rounding that changes nothing. *)
Definition no_rounding (q : Q) : Q := q.

Definition readme_list : list value :=
  [VStr (js "resume"); VStr (js "twitter"); VStr (js "instagram");
   VStr (js "linkedin")].

Definition readme_records : list value :=
  [VObj [(js "id", VStr (js "resume"))]; VObj [(js "id", VStr (js "twitter"))];
   VObj [(js "id", VStr (js "instagram"))]; VObj [(js "id", VStr (js "linkedin"))]].

(** ** What the distance engine is specified to compute *)

(** The recurrence as the specification words it: cell [[i][j]] is [j] in
    row [0] and [i] in column [0]; elsewhere it is cell [[i-1][j-1]] when
    the characters [b[i-1]] and [a[j-1]] agree, and otherwise one more than
    the least of the cells [[i-1][j-1]], [[i][j-1]] and [[i-1][j]]. *)
Fixpoint recurrence (a b : jsstring) (i : nat) : nat -> nat :=
  match i with
  | O => fun j => j
  | S i' =>
      fix row (j : nat) : nat :=
        match j with
        | O => S i'
        | S j' =>
            if jsstring_eqb (charAt b i') (charAt a j') then recurrence a b i' j'
            else 1 + Nat.min (recurrence a b i' j')
                       (Nat.min (row j') (recurrence a b i' j))
        end
  end.

(** One edit: a single character inserted, deleted or substituted
    anywhere in the text. *)
Inductive edit1 : jsstring -> jsstring -> Prop :=
| edit_insert (l : jsstring) (c : code_unit) (r : jsstring) :
    edit1 (l ++ r) (l ++ c :: r)
| edit_delete (l : jsstring) (c : code_unit) (r : jsstring) :
    edit1 (l ++ c :: r) (l ++ r)
| edit_subst (l : jsstring) (c c' : code_unit) (r : jsstring) :
    edit1 (l ++ c :: r) (l ++ c' :: r).

(** [edits n s t]: [n] edits in a row transform [s] into [t]. *)
Inductive edits : nat -> jsstring -> jsstring -> Prop :=
| edits_done (s : jsstring) : edits 0 s s
| edits_step (n : nat) (s u t : jsstring) :
    edit1 s u -> edits n u t -> edits (S n) s t.

(** [d] is the Levenshtein distance of [s] and [t]: some [d] edits
    transform [s] into [t] and no fewer do. *)
Definition levenshtein (s t : jsstring) (d : nat) : Prop :=
  edits d s t /\ forall n, edits n s t -> d <= n.

(** The same recurrence read from the front of the two strings; the
    proofs go through it. *)
Fixpoint lev (s : jsstring) : jsstring -> nat :=
  match s with
  | [] => fun t => List.length t
  | x :: s' =>
      fix lev_row (t : jsstring) : nat :=
        match t with
        | [] => S (List.length s')
        | y :: t' =>
            if N.eqb x y then lev s' t'
            else 1 + Nat.min (lev s' t') (Nat.min (lev_row t') (lev s' t))
        end
  end.

(** ** What the matcher does with one item *)

(** The comparison string: lower-cased unless the search is case-sensitive. *)
Definition normalize (cfg : config) (s : jsstring) : jsstring :=
  if negb (caseSensitive cfg) then toLowerCase s else s.

(** The value kept as winner (lines 156-157) for an item whose normalized
    candidate string is [c]. *)
Definition winner_of (cfg : config) (key : option jsstring) (item : value)
    (c : jsstring) : value :=
  if key_given key && returnWinningObject cfg then item else VStr c.

(** [item] passes the gate with the non-empty string [c]; its distance to
    the input [str] is [d] and it would be returned as [w]. *)
Definition considered (cfg : config) (key : option jsstring) (str : jsstring)
    (item : value) (c : jsstring) (d : nat) (w : value) : Prop :=
  extract key item = Ok (VStr c) /\ c <> [] /\
  d = getEditDistance (normalize cfg str) (normalize cfg c) /\
  w = winner_of cfg key item (normalize cfg c).

(** [item] stops at the gate of line 145: its extracted value is falsy
    (a missing key, [null], [false], [0] or the empty string). *)
Definition skipped (key : option jsstring) (item : value) : Prop :=
  exists v, extract key item = Ok v /\ truthy v = false.

(** A candidate as the data model has it: one that stops at the gate, or
    one whose extracted value is a non-empty string. *)
Definition well_formed (key : option jsstring) (item : value) : Prop :=
  skipped key item \/ exists c, extract key item = Ok (VStr c) /\ c <> [].

(** Executable view of one turn of the loop: the exception raised, [None]
    for an item stopped at the gate, or the distance and the would-be
    winner. *)
Definition examine (cfg : config) (key : option jsstring) (str : jsstring)
    (item : value) : result (option (nat * value)) :=
  candidate <- extract key item ;;
  if negb (truthy candidate) then Ok None
  else
    candidate <- (if negb (caseSensitive cfg) then toLowerCase_call candidate
                  else Ok candidate) ;;
    val <- getEditDistance_call str candidate ;;
    Ok (Some (val, if key_given key && returnWinningObject cfg
                   then item else candidate)).

(** [item] passes the gate, whatever its extracted value is; the call of
    line 149 computes the distance [d] for it and it would be returned as
    [w]. *)
Definition measured (cfg : config) (key : option jsstring) (str : jsstring)
    (item : value) (d : nat) (w : value) : Prop :=
  exists v v',
    extract key item = Ok v /\ truthy v = true /\
    (if negb (caseSensitive cfg) then toLowerCase_call v else Ok v) = Ok v' /\
    getEditDistance_call (normalize cfg str) v' = Ok d /\
    w = (if key_given key && returnWinningObject cfg then item else v').

(** [val] wins against the running best: the test of line 153. *)
Definition beats (val : nat) (best : option Q) : bool :=
  match best with
  | None => true
  | Some q => Qltb (Qnat val) q
  end.

(** The running best before the loop (line 136), as the call sets it up
    for the input [str]. *)
Definition initial_best (fl : Q -> Q) (cfg : config) (str : jsstring) : option Q :=
  match threshold cfg with
  | None => None
  | Some t => Some (fl (t * Qnat (List.length (normalize cfg str)))%Q)
  end.

(** A distance [d] qualifies for the input [str]: there is no threshold,
    or [d] is below the bound that line 136 computes, the rounded product
    of the threshold and the length of the input as it is compared. *)
Definition qualifies (fl : Q -> Q) (cfg : config) (str : jsstring) (d : nat) : Prop :=
  forall t, threshold cfg = Some t ->
            (Qnat d < fl (t * Qnat (List.length (normalize cfg str))))%Q.

(** The greatest length a string can have in the language. *)
Definition max_string_length : Z := 2 ^ 53 - 1.

Definition within_limit (s : jsstring) : Prop :=
  (Z.of_nat (List.length s) <= max_string_length)%Z.

(** Text of Basic Latin only, where lower-casing acts on every code unit
    by itself. *)
Definition ascii_text (s : jsstring) : Prop :=
  Forall (fun c : code_unit => (c < 128)%N) s.

(** ** Changing one option *)

(** The assignments [didYouMean.threshold = t],
    [didYouMean.nullResultValue = v] and
    [didYouMean.returnWinningObject = b] on the function object. *)
Definition set_threshold (t : option Q) (cfg : config) : config :=
  {| threshold := t;
     caseSensitive := caseSensitive cfg;
     nullResultValue := nullResultValue cfg;
     returnWinningObject := returnWinningObject cfg |}.

Definition set_nullResultValue (v : value) (cfg : config) : config :=
  {| threshold := threshold cfg;
     caseSensitive := caseSensitive cfg;
     nullResultValue := v;
     returnWinningObject := returnWinningObject cfg |}.

Definition set_returnWinningObject (b : bool) (cfg : config) : config :=
  {| threshold := threshold cfg;
     caseSensitive := caseSensitive cfg;
     nullResultValue := nullResultValue cfg;
     returnWinningObject := b |}.

(** * Proofs *)

(** Closes a goal that a closed term is not the empty string. *)
Ltac nonempty := let H := fresh in intros H; vm_compute in H; discriminate H.

(** ** The source's own examples *)

Example ged_kitten : getEditDistance (js "kitten") (js "sitting") = 3.
Proof. reflexivity. Qed.

Example ged_readme : getEditDistance (js "insargrm") (js "instagram") = 3.
Proof. reflexivity. Qed.

Example ged_matrix_small :
  getEditDistance_matrix (js "ab") (js "abc")
  = [[0;1;2];[1;0;1];[2;1;0];[3;2;1]].
Proof. reflexivity. Qed.

Example readme_strings :
  didYouMean no_rounding defaults (Some (js "insargrm")) readme_list None
  = Ok (VStr (js "instagram")).
Proof. vm_compute. reflexivity. Qed.

Example readme_objects :
  didYouMean no_rounding defaults (Some (js "insargrm")) readme_records
    (Some (js "id"))
  = Ok (VStr (js "instagram")).
Proof. vm_compute. reflexivity. Qed.

Example readme_winning_object :
  didYouMean no_rounding (mkConfig (Some (4 # 10)) false VNull true)
    (Some (js "insargrm")) readme_records (Some (js "id"))
  = Ok (VObj [(js "id", VStr (js "instagram"))]).
Proof. vm_compute. reflexivity. Qed.

(** A record whose [length] is [0] passes for a candidate when the search
    is case-sensitive: line 179 returns the length of the input. *)
Example length_zero_record :
  didYouMean no_rounding (mkConfig None true VNull false) (Some (js "abc"))
    [VObj [(js "length", VNum 0)]] None
  = Ok (VObj [(js "length", VNum 0)]).
Proof. vm_compute. reflexivity. Qed.

(** U+0130 lower-cases to two code units. *)
(** So does an empty array. *)
Example empty_array_candidate :
  didYouMean no_rounding (mkConfig None true VNull false) (Some (js "abc"))
    [VObj [(js "k", VArr [])]] (Some (js "k"))
  = Ok (VArr []).
Proof. vm_compute. reflexivity. Qed.

(** What a record inherits is left open. *)
Example inherited_member :
  didYouMean no_rounding defaults (Some (js "abc")) [VObj []]
    (Some (js "constructor"))
  = Unmodelled.
Proof. vm_compute. reflexivity. Qed.

Example lower_dotted_I : toLowerCase [304%N; 304%N] = [105; 775; 105; 775]%N.
Proof. reflexivity. Qed.
(** ** The recurrence read from the front *)

Lemma lev_nil_r (s : jsstring) : lev s [] = List.length s.
Proof. destruct s; reflexivity. Qed.

Lemma lev_cons_cons (x y : code_unit) (s t : jsstring) :
  lev (x :: s) (y :: t) =
  if N.eqb x y then lev s t
  else S (Nat.min (lev s t) (Nat.min (lev (x :: s) t) (lev s (y :: t)))).
Proof. reflexivity. Qed.

Lemma lev_refl (s : jsstring) : lev s s = 0.
Proof.
  induction s as [|x s IH]; [reflexivity|].
  rewrite lev_cons_cons, N.eqb_refl. exact IH.
Qed.

(** Both strings one character shorter: at most one edit saved. *)
Lemma lev_cons_cons_le (x y : code_unit) (s t : jsstring) :
  lev (x :: s) (y :: t) <= S (lev s t).
Proof.
  rewrite lev_cons_cons. destruct (N.eqb x y); lia.
Qed.

(** Dropping the head of either string moves the distance by at most one,
    in both directions. *)
Lemma lev_head_step (n : nat) :
  forall (s t : jsstring) (c : code_unit),
    List.length s + List.length t <= n ->
    lev s (c :: t) <= S (lev s t) /\ lev s t <= S (lev s (c :: t)) /\
    lev (c :: s) t <= S (lev s t) /\ lev s t <= S (lev (c :: s) t).
Proof.
  induction n as [|n IH]; intros s t c Hn.
  - destruct s; destruct t; simpl in Hn; try lia. simpl. lia.
  - assert (R : forall s' t' c', List.length s' + List.length t' <= n ->
                lev s' (c' :: t') <= S (lev s' t') /\ lev s' t' <= S (lev s' (c' :: t')) /\
                lev (c' :: s') t' <= S (lev s' t') /\ lev s' t' <= S (lev (c' :: s') t'))
      by (intros; apply IH; assumption).
    repeat split.
    + destruct s as [|x s']; [simpl; lia|].
      rewrite lev_cons_cons. destruct (N.eqb x c).
      * simpl in Hn. destruct (R s' t x) as (_ & _ & _ & H); [lia|exact H].
      * lia.
    + destruct s as [|x s']; [simpl; lia|].
      rewrite lev_cons_cons. simpl in Hn.
      destruct (R s' t x) as (_ & _ & H3 & _); [lia|].
      destruct (R s' t c) as (_ & H2 & _ & _); [lia|].
      destruct (N.eqb x c); lia.
    + destruct t as [|y t']; [rewrite !lev_nil_r; simpl; lia|].
      rewrite lev_cons_cons. destruct (N.eqb c y).
      * simpl in Hn. destruct (R s t' y) as (_ & H & _ & _); [lia|exact H].
      * lia.
    + destruct t as [|y t']; [rewrite !lev_nil_r; simpl; lia|].
      rewrite lev_cons_cons. simpl in Hn.
      destruct (R s t' y) as (H1 & _ & _ & _); [lia|].
      destruct (R s t' c) as (_ & _ & _ & H4); [lia|].
      destruct (N.eqb c y); lia.
Qed.

Lemma lev_drop_r (s t : jsstring) (c : code_unit) : lev s (c :: t) <= S (lev s t).
Proof. eapply lev_head_step; reflexivity. Qed.

Lemma lev_add_r (s t : jsstring) (c : code_unit) : lev s t <= S (lev s (c :: t)).
Proof. eapply (lev_head_step _ s t c); reflexivity. Qed.

Lemma lev_drop_l (s t : jsstring) (c : code_unit) : lev (c :: s) t <= S (lev s t).
Proof. eapply lev_head_step; reflexivity. Qed.

Lemma lev_add_l (s t : jsstring) (c : code_unit) : lev s t <= S (lev (c :: s) t).
Proof. eapply (lev_head_step _ s t c); reflexivity. Qed.

(** Substituting the head of the first string costs at most one. *)
Lemma lev_subst_head (c c' : code_unit) (r t : jsstring) :
  lev (c :: r) t <= S (lev (c' :: r) t).
Proof.
  induction t as [|y t IH]; [rewrite !lev_nil_r; simpl; lia|].
  pose proof (lev_cons_cons_le c y r t) as Hb.
  pose proof (lev_drop_r (c :: r) t y) as H1.
  pose proof (lev_drop_l r (y :: t) c) as H3.
  rewrite (lev_cons_cons c' y). destruct (N.eqb c' y); lia.
Qed.

(** An edit below a common head. *)
Lemma lev_cons_mono (x : code_unit) (s s' : jsstring) :
  (forall t, lev s t <= S (lev s' t)) ->
  forall t, lev (x :: s) t <= S (lev (x :: s') t).
Proof.
  intros H t. induction t as [|y t IH].
  - rewrite !lev_nil_r. specialize (H []). rewrite !lev_nil_r in H. simpl. lia.
  - rewrite !lev_cons_cons.
    pose proof (H t) as H1. pose proof (H (y :: t)) as H2.
    destruct (N.eqb x y); lia.
Qed.

(** One edit of the first string moves the distance by at most one. *)
Lemma lev_edit1 (s s' : jsstring) :
  edit1 s s' -> forall t, lev s t <= S (lev s' t).
Proof.
  intros H. destruct H as [l c r|l c r|l c c' r];
    induction l as [|x l IH]; simpl; intros t.
  - apply lev_add_l.
  - apply lev_cons_mono. exact IH.
  - apply lev_drop_l.
  - apply lev_cons_mono. exact IH.
  - apply lev_subst_head.
  - apply lev_cons_mono. exact IH.
Qed.

(** ** Chains of edits *)

Lemma edit1_cons (x : code_unit) (s t : jsstring) :
  edit1 s t -> edit1 (x :: s) (x :: t).
Proof.
  intros [l c r|l c r|l c c' r].
  - apply (edit_insert (x :: l)).
  - apply (edit_delete (x :: l)).
  - apply (edit_subst (x :: l)).
Qed.

Lemma edits_cons (x : code_unit) (n : nat) (s t : jsstring) :
  edits n s t -> edits n (x :: s) (x :: t).
Proof.
  induction 1 as [s|n s u t H1 _ IH]; [constructor|].
  eapply edits_step; [apply edit1_cons; exact H1|exact IH].
Qed.

Lemma edit1_sym (s t : jsstring) : edit1 s t -> edit1 t s.
Proof. intros [l c r|l c r|l c c' r]; constructor. Qed.

Lemma edit1_rev (s t : jsstring) : edit1 s t -> edit1 (rev s) (rev t).
Proof.
  intros [l c r|l c r|l c c' r];
    rewrite !rev_app_distr; simpl; rewrite <- ?app_assoc; simpl; constructor.
Qed.

Lemma edits_app (n m : nat) (s u t : jsstring) :
  edits n s u -> edits m u t -> edits (n + m) s t.
Proof.
  induction 1 as [s|n s v u H1 _ IH]; intros H2; [exact H2|].
  simpl. eapply edits_step; [exact H1|apply IH; exact H2].
Qed.

Lemma edits_sym (n : nat) (s t : jsstring) : edits n s t -> edits n t s.
Proof.
  induction 1 as [s|n s u t H1 _ IH]; [constructor|].
  replace (S n) with (n + 1) by lia.
  eapply edits_app; [exact IH|].
  eapply edits_step; [apply edit1_sym; exact H1|constructor].
Qed.

Lemma edits_rev (n : nat) (s t : jsstring) :
  edits n s t -> edits n (rev s) (rev t).
Proof.
  induction 1 as [s|n s u t H1 _ IH]; [constructor|].
  eapply edits_step; [apply edit1_rev; exact H1|exact IH].
Qed.

Lemma edits_insert_all (t : jsstring) : edits (List.length t) [] t.
Proof.
  induction t as [|y t IH]; [constructor|].
  simpl. eapply edits_step; [apply (edit_insert [] y [])|].
  apply edits_cons. exact IH.
Qed.

Lemma edits_delete_all (s : jsstring) : edits (List.length s) s [].
Proof. apply edits_sym, edits_insert_all. Qed.

(** The recurrence is reached by a chain of edits ... *)
Lemma lev_edits (s t : jsstring) : edits (lev s t) s t.
Proof.
  revert t. induction s as [|x s IHs]; intros t.
  - apply edits_insert_all.
  - induction t as [|y t IHt].
    + rewrite lev_nil_r. apply edits_delete_all.
    + rewrite lev_cons_cons. destruct (N.eqb_spec x y) as [->|Hxy].
      * apply edits_cons, IHs.
      * destruct (Nat.min_spec (lev (x :: s) t) (lev s (y :: t))) as [[_ E1]|[_ E1]];
          rewrite E1; clear E1.
        -- destruct (Nat.min_spec (lev s t) (lev (x :: s) t)) as [[_ E2]|[_ E2]];
             rewrite E2; clear E2.
           ++ eapply edits_step; [apply (edit_subst [] x y s)|].
              apply edits_cons, IHs.
           ++ eapply edits_step; [apply (edit_insert [] y (x :: s))|].
              apply edits_cons, IHt.
        -- destruct (Nat.min_spec (lev s t) (lev s (y :: t))) as [[_ E2]|[_ E2]];
             rewrite E2; clear E2.
           ++ eapply edits_step; [apply (edit_subst [] x y s)|].
              apply edits_cons, IHs.
           ++ eapply edits_step; [apply (edit_delete [] x s)|].
              apply IHs.
Qed.

(** ... and no chain is shorter. *)
Lemma lev_least (n : nat) (s t : jsstring) : edits n s t -> lev s t <= n.
Proof.
  induction 1 as [s|n s u t H1 _ IH]; [rewrite lev_refl; lia|].
  pose proof (lev_edit1 s u H1 t). lia.
Qed.

Lemma lev_sym (s t : jsstring) : lev s t = lev t s.
Proof.
  apply Nat.le_antisymm; apply lev_least, edits_sym, lev_edits.
Qed.

Lemma lev_rev (s t : jsstring) : lev (rev s) (rev t) = lev s t.
Proof.
  apply Nat.le_antisymm; apply lev_least.
  - apply edits_rev, lev_edits.
  - rewrite <- (rev_involutive s), <- (rev_involutive t) at 2.
    apply edits_rev, lev_edits.
Qed.

Lemma lev_triangle (s u t : jsstring) : lev s t <= lev s u + lev u t.
Proof.
  apply lev_least. eapply edits_app; apply lev_edits.
Qed.

(** ** The grid *)

Section ArrayFacts.
Context {A : Type}.
Variable hole : A.

Lemma array_get_set_same (arr : list A) (k : nat) (v : A) :
  array_get hole (array_set hole arr k v) k = v.
Proof.
  revert arr. induction k as [|k IH]; intros [|x rest]; simpl; auto;
    apply IH.
Qed.

Lemma array_get_set_other (arr : list A) (k k' : nat) (v : A) :
  k <> k' ->
  array_get hole (array_set hole arr k v) k' = array_get hole arr k'.
Proof.
  unfold array_get. revert arr k'.
  induction k as [|k IH]; intros [|x rest] [|k'] Hk; simpl; try congruence.
  - destruct k'; reflexivity.
  - rewrite IH by congruence. destruct k'; reflexivity.
  - apply IH. congruence.
Qed.
End ArrayFacts.

Lemma cell_set_same (m : matrix_t) (i j v : nat) :
  cell (set_cell m i j v) i j = v.
Proof.
  unfold cell, set_cell. rewrite array_get_set_same. apply array_get_set_same.
Qed.

Lemma cell_set_other (m : matrix_t) (i j v i' j' : nat) :
  i' <> i \/ j' <> j ->
  cell (set_cell m i j v) i' j' = cell m i' j'.
Proof.
  intros H. unfold cell, set_cell.
  destruct (Nat.eq_dec i i') as [<-|Hi].
  - rewrite array_get_set_same. apply array_get_set_other. lia.
  - rewrite array_get_set_other by exact Hi. reflexivity.
Qed.

(** The loop rule: an invariant indexed by the loop counter. *)
Lemma fold_seq_invariant {S : Type} (P : nat -> S -> Prop)
    (body : S -> nat -> S) (n : nat) :
  forall (lo : nat) (s : S),
    P lo s ->
    (forall i s', lo <= i < lo + n -> P i s' -> P (Datatypes.S i) (body s' i)) ->
    P (lo + n) (fold_left body (seq lo n) s).
Proof.
  induction n as [|n IH]; intros lo s H0 Hstep; simpl.
  - rewrite Nat.add_0_r. exact H0.
  - rewrite <- Nat.add_succ_comm. apply IH.
    + apply Hstep; [lia|exact H0].
    + intros i s' Hi. apply Hstep. lia.
Qed.

Lemma for_upto_invariant {S : Type} (P : nat -> S -> Prop)
    (lo hi : nat) (body : S -> nat -> S) (s : S) :
  lo <= Datatypes.S hi ->
  P lo s ->
  (forall i s', lo <= i <= hi -> P i s' -> P (Datatypes.S i) (body s' i)) ->
  P (Datatypes.S hi) (for_upto lo hi body s).
Proof.
  intros Hlo H0 Hstep. unfold for_upto.
  replace (Datatypes.S hi) with (lo + (Datatypes.S hi - lo)) at 1 by lia.
  apply fold_seq_invariant; [exact H0|].
  intros i s' Hi. apply Hstep. lia.
Qed.

Lemma recurrence_col0 (a b : jsstring) (i : nat) : recurrence a b i 0 = i.
Proof. destruct i; reflexivity. Qed.

Lemma recurrence_step (a b : jsstring) (i j : nat) :
  recurrence a b (S i) (S j) =
  if jsstring_eqb (charAt b i) (charAt a j) then recurrence a b i j
  else 1 + Nat.min (recurrence a b i j)
             (Nat.min (recurrence a b (S i) j) (recurrence a b i (S j))).
Proof. reflexivity. Qed.

(** The third loop fills the grid with the cells of the recurrence. *)
Lemma getEditDistance_matrix_cells (a b : jsstring) (i j : nat) :
  i <= List.length b -> j <= List.length a ->
  cell (getEditDistance_matrix a b) i j = recurrence a b i j.
Proof.
  set (la := List.length a). set (lb := List.length b).
  intros Hi Hj. unfold getEditDistance_matrix. fold la lb.
  set (m1 := for_upto 0 lb (fun m i => array_set [] m i [i]) []).
  assert (H1 : forall k, k < S lb -> cell m1 k 0 = k).
  { apply (for_upto_invariant (fun n m => forall k, k < n -> cell m k 0 = k));
      [lia|intros; lia|].
    intros n m _ IH k Hk. unfold cell.
    destruct (Nat.eq_dec n k) as [->|Hn].
    - rewrite array_get_set_same. reflexivity.
    - rewrite array_get_set_other by exact Hn. apply IH. lia. }
  set (m2 := for_upto 0 la (fun m j => set_cell m 0 j j) m1).
  assert (H2 : (forall k, k < S lb -> cell m2 k 0 = k) /\
               (forall k, k < S la -> cell m2 0 k = k)).
  { apply (for_upto_invariant (fun n m => (forall k, k < S lb -> cell m k 0 = k) /\
                                           (forall k, k < n -> cell m 0 k = k)));
      [lia|split; [exact H1|intros; lia]|].
    intros n m _ [IHc IHr]. split; intros k Hk.
    - destruct (Nat.eq_dec k 0) as [->|Hk0].
      + destruct (Nat.eq_dec n 0) as [->|Hn0].
        * apply cell_set_same.
        * rewrite cell_set_other by lia. apply IHc. lia.
      + rewrite cell_set_other by lia. apply IHc. exact Hk.
    - destruct (Nat.eq_dec k n) as [->|Hkn].
      + apply cell_set_same.
      + rewrite cell_set_other by lia. apply IHr. lia. }
  destruct H2 as [H2c H2r].
  pose (filled := fun (r c : nat) (m : matrix_t) =>
          forall i' j', i' <= lb -> j' <= la ->
            i' < r \/ j' = 0 \/ (i' = r /\ j' < c) ->
            cell m i' j' = recurrence a b i' j').
  assert (H3 : filled (S lb) 0
                 (for_upto 1 lb (fun m i => for_upto 1 la (fill_cell a b i) m) m2)).
  { apply (for_upto_invariant (fun r m => filled r 0 m)); [lia| |].
    - intros i' j' Hi' Hj' [H|[H|[_ H]]]; [|subst j'|lia].
      + assert (i' = 0) by lia. subst i'. simpl. apply H2r. lia.
      + rewrite recurrence_col0. apply H2c. lia.
    - intros r m Hr IHr.
      assert (Hin : filled r (S la) (for_upto 1 la (fill_cell a b r) m)).
      { apply (for_upto_invariant (fun c m' => filled r c m')); [lia| |].
        - intros i' j' Hi' Hj' [H|[H|[H H']]]; apply IHr; auto; lia.
        - intros c m' Hc IHc i' j' Hi' Hj' Hreg.
          assert (Hv : cell (fill_cell a b r m' c) r c = recurrence a b r c).
          { destruct r as [|r']; [lia|]. destruct c as [|c']; [lia|].
            rewrite recurrence_step. unfold fill_cell.
            replace (S r' - 1) with r' by lia. replace (S c' - 1) with c' by lia.
            assert (E1 : cell m' r' c' = recurrence a b r' c')
              by (apply IHc; lia).
            assert (E2 : cell m' (S r') c' = recurrence a b (S r') c')
              by (apply IHc; lia).
            assert (E3 : cell m' r' (S c') = recurrence a b r' (S c'))
              by (apply IHc; lia).
            destruct (jsstring_eqb (charAt b r') (charAt a c'));
              rewrite cell_set_same, ?E1, ?E2, ?E3; lia. }
          destruct (Nat.eq_dec i' r) as [->|Hne1];
            [destruct (Nat.eq_dec j' c) as [->|Hne2]|].
          + exact Hv.
          + transitivity (cell m' r j'); [|apply IHc; lia].
            unfold fill_cell.
            destruct (jsstring_eqb (charAt b (r - 1)) (charAt a (c - 1)));
              apply cell_set_other; lia.
          + transitivity (cell m' i' j'); [|apply IHc; lia].
            unfold fill_cell.
            destruct (jsstring_eqb (charAt b (r - 1)) (charAt a (c - 1)));
              apply cell_set_other; lia. }
      intros i' j' Hi' Hj' Hreg. apply Hin; lia. }
  apply H3; lia.
Qed.

(** ** From the grid to the recurrence read from the front *)

Lemma firstn_snoc {A : Type} (l : list A) (k : nat) (x : A) :
  nth_error l k = Some x -> firstn (S k) l = firstn k l ++ [x].
Proof.
  revert k. induction l as [|y l IH]; intros [|k] H; simpl in *; try discriminate.
  - congruence.
  - f_equal. apply IH. exact H.
Qed.

Lemma nth_error_in_range {A : Type} (l : list A) (k : nat) :
  k < List.length l -> exists x, nth_error l k = Some x.
Proof.
  intros H. destruct (nth_error l k) eqn:E; [eauto|].
  apply nth_error_None in E. lia.
Qed.

Lemma recurrence_lev (a b : jsstring) (i j : nat) :
  i <= List.length b -> j <= List.length a ->
  recurrence a b i j = lev (rev (firstn i b)) (rev (firstn j a)).
Proof.
  revert j. induction i as [|i IHi]; intros j Hi Hj.
  - simpl. rewrite length_rev, length_firstn. lia.
  - induction j as [|j IHj].
    + rewrite recurrence_col0. simpl firstn at 2. simpl rev at 2.
      rewrite lev_nil_r, length_rev, length_firstn. lia.
    + destruct (nth_error_in_range b i) as [x Hx]; [lia|].
      destruct (nth_error_in_range a j) as [y Hy]; [lia|].
      rewrite recurrence_step, IHi, IHj, (IHi (S j)) by lia.
      rewrite (firstn_snoc _ _ _ Hx), (firstn_snoc _ _ _ Hy), !rev_unit.
      rewrite lev_cons_cons. unfold charAt. rewrite Hx, Hy. simpl.
      destruct (N.eqb x y); reflexivity.
Qed.

(** The engine computes the recurrence on the two strings. *)
Lemma getEditDistance_recurrence (a b : jsstring) :
  getEditDistance a b = recurrence a b (List.length b) (List.length a).
Proof.
  unfold getEditDistance.
  destruct (Nat.eqb_spec (List.length a) 0) as [Ha|Ha].
  - rewrite Ha, recurrence_col0. reflexivity.
  - destruct (Nat.eqb_spec (List.length b) 0) as [Hb|Hb].
    + rewrite Hb. reflexivity.
    + apply getEditDistance_matrix_cells; lia.
Qed.

Lemma getEditDistance_lev (a b : jsstring) : getEditDistance a b = lev a b.
Proof.
  rewrite getEditDistance_recurrence, recurrence_lev by lia.
  rewrite !firstn_all, lev_rev. apply lev_sym.
Qed.

(** ** Numbers and strings of the matcher *)

Lemma Qltb_lt (x y : Q) : Qltb x y = true <-> (x < y)%Q.
Proof.
  unfold Qltb. rewrite negb_true_iff. split; intros H.
  - apply Qnot_le_lt. intros Hle. apply Qle_bool_iff in Hle. congruence.
  - destruct (Qle_bool y x) eqn:E; [|reflexivity].
    apply Qle_bool_iff in E. exfalso. exact (Qlt_not_le _ _ H E).
Qed.

Lemma Qltb_ge (x y : Q) : Qltb x y = false <-> (y <= x)%Q.
Proof.
  unfold Qltb. rewrite negb_false_iff. apply Qle_bool_iff.
Qed.

Lemma Qnat_lt (n m : nat) : (Qnat n < Qnat m)%Q <-> n < m.
Proof.
  unfold Qnat. rewrite <- Zlt_Qlt. symmetry. apply Nat2Z.inj_lt.
Qed.

Lemma Qnat_le (n m : nat) : (Qnat n <= Qnat m)%Q <-> n <= m.
Proof.
  unfold Qnat. rewrite <- Zle_Qle. symmetry. apply Nat2Z.inj_le.
Qed.

Lemma beats_Qnat (v v0 : nat) : beats v (Some (Qnat v0)) = true <-> v < v0.
Proof. simpl. rewrite Qltb_lt. apply Qnat_lt. Qed.

Lemma beats_Qnat_false (v v0 : nat) : beats v (Some (Qnat v0)) = false <-> v0 <= v.
Proof. simpl. rewrite Qltb_ge. apply Qnat_le. Qed.

(** A value that beats the best is below every value that does not. *)
Lemma beats_below (v v' : nat) (best : option Q) :
  beats v best = true -> beats v' best = false -> v < v'.
Proof.
  destruct best as [q|]; simpl; [|discriminate].
  rewrite Qltb_lt, Qltb_ge. intros H1 H2.
  apply Qnat_lt. eapply Qlt_le_trans; eassumption.
Qed.

(** Beating a value that beats the best beats the best. *)
Lemma beats_trans (v v' : nat) (best : option Q) :
  v < v' -> beats v' best = true -> beats v best = true.
Proof.
  destruct best as [q|]; simpl; [|reflexivity].
  rewrite !Qltb_lt. intros H1 H2.
  eapply Qlt_trans; [apply Qnat_lt; exact H1|exact H2].
Qed.

Lemma truthy_VStr (s : jsstring) : truthy (VStr s) = true <-> s <> [].
Proof.
  destruct s; simpl; split; intros H; congruence.
Qed.

(** What the lower-casing of the builtin is used for below: it maps no
    non-empty string to the empty one, and it changes nothing in a string
    it has produced. *)
Lemma lower_unit_nonempty (c : code_unit) : lower_unit c <> [].
Proof.
  unfold lower_unit.
  destruct ((65 <=? c) && (c <=? 90))%N; [discriminate|].
  destruct ((192 <=? c) && (c <=? 222) && negb (c =? 215))%N; [discriminate|].
  destruct (c =? 304)%N; discriminate.
Qed.

Lemma toLowerCase_nonempty (s : jsstring) : s <> [] -> toLowerCase s <> [].
Proof.
  destruct s as [|c s]; [congruence|]. intros _. unfold toLowerCase. simpl.
  pose proof (lower_unit_nonempty c). destruct (lower_unit c); [congruence|].
  discriminate.
Qed.

Lemma toLowerCase_empty_iff (s : jsstring) : toLowerCase s = [] <-> s = [].
Proof.
  split; [|intros ->; reflexivity].
  intros H. destruct s as [|c s]; [reflexivity|].
  exfalso. apply (toLowerCase_nonempty (c :: s)); [discriminate|exact H].
Qed.

Lemma lower_unit_fixed (d : code_unit) :
  ((65 <=? d) && (d <=? 90))%N = false ->
  ((192 <=? d) && (d <=? 222) && negb (d =? 215))%N = false ->
  (d =? 304)%N = false ->
  lower_unit d = [d].
Proof. intros H1 H2 H3. unfold lower_unit. rewrite H1, H2, H3. reflexivity. Qed.

Lemma lower_unit_idempotent (c : code_unit) :
  flat_map lower_unit (lower_unit c) = lower_unit c.
Proof.
  unfold lower_unit at 2 3.
  destruct ((65 <=? c) && (c <=? 90))%N eqn:H1.
  { apply andb_true_iff in H1. destruct H1 as [Ha Hb].
    apply N.leb_le in Ha, Hb. simpl. rewrite lower_unit_fixed; [reflexivity| | |].
    - apply andb_false_iff. right. apply N.leb_gt. lia.
    - apply andb_false_iff. left. apply andb_false_iff. left. apply N.leb_gt. lia.
    - apply N.eqb_neq. lia. }
  destruct ((192 <=? c) && (c <=? 222) && negb (c =? 215))%N eqn:H2.
  { apply andb_true_iff in H2. destruct H2 as [H2 _].
    apply andb_true_iff in H2. destruct H2 as [Ha Hb].
    apply N.leb_le in Ha, Hb. simpl. rewrite lower_unit_fixed; [reflexivity| | |].
    - apply andb_false_iff. right. apply N.leb_gt. lia.
    - apply andb_false_iff. left. apply andb_false_iff. right. apply N.leb_gt. lia.
    - apply N.eqb_neq. lia. }
  destruct (c =? 304)%N eqn:H3; [reflexivity|].
  simpl. rewrite lower_unit_fixed by assumption. reflexivity.
Qed.

Lemma toLowerCase_app (s t : jsstring) :
  toLowerCase (s ++ t) = toLowerCase s ++ toLowerCase t.
Proof. apply flat_map_app. Qed.

Lemma toLowerCase_idempotent (s : jsstring) :
  toLowerCase (toLowerCase s) = toLowerCase s.
Proof.
  induction s as [|c s IH]; [reflexivity|].
  change (toLowerCase (c :: s)) with (lower_unit c ++ toLowerCase s).
  rewrite toLowerCase_app, IH. f_equal. apply lower_unit_idempotent.
Qed.

Lemma normalize_nonempty (cfg : config) (s : jsstring) :
  s <> [] -> normalize cfg s <> [].
Proof.
  unfold normalize. destruct (negb (caseSensitive cfg));
    [apply toLowerCase_nonempty|auto].
Qed.


(** ** One turn of the loop *)

Lemma scan_step_examine (cfg : config) (key : option jsstring) (str : jsstring)
    (st : state) (item : value) :
  scan_step cfg key str st item =
  r <- examine cfg key str item ;;
  match r with
  | None => Ok st
  | Some (val, w) =>
      if beats val (winningVal st)
      then Ok {| winner := Some w; winningVal := Some (Qnat val) |}
      else Ok st
  end.
Proof.
  unfold scan_step, examine, beats.
  destruct (extract key item) as [v|e|]; simpl; try reflexivity.
  destruct (truthy v); simpl; [|reflexivity].
  destruct (if negb (caseSensitive cfg) then toLowerCase_call v else Ok v)
    as [v'|e|]; simpl; try reflexivity.
  destruct (getEditDistance_call str v') as [d|e|]; reflexivity.
Qed.

Lemma examine_skipped (cfg : config) (key : option jsstring) (str : jsstring)
    (item : value) :
  examine cfg key str item = Ok None <-> skipped key item.
Proof.
  unfold examine, skipped. split.
  - destruct (extract key item) as [v|e|]; simpl; try discriminate.
    destruct (truthy v) eqn:Ht; simpl.
    + destruct (if negb (caseSensitive cfg) then toLowerCase_call v else Ok v)
        as [v'|e|]; simpl; try discriminate.
      destruct (getEditDistance_call str v'); discriminate.
    + intros _. exists v. auto.
  - intros [v [-> Ht]]. simpl. rewrite Ht. reflexivity.
Qed.

(** The view of an item and the predicate [measured] say the same. *)
Lemma examine_measured (cfg : config) (key : option jsstring) (str : jsstring)
    (item : value) (d : nat) (w : value) :
  examine cfg key (normalize cfg str) item = Ok (Some (d, w)) <->
  measured cfg key str item d w.
Proof.
  unfold examine, measured. split.
  - destruct (extract key item) as [v|e|]; simpl; try discriminate.
    destruct (truthy v) eqn:Ht; simpl; [|discriminate].
    destruct (if negb (caseSensitive cfg) then toLowerCase_call v else Ok v)
      as [v'|e|] eqn:E1; simpl; try discriminate.
    destruct (getEditDistance_call (normalize cfg str) v') as [d0|e|] eqn:E2;
      simpl; try discriminate.
    intros H. injection H as <- <-. exists v, v'. auto.
  - intros (v & v' & -> & Ht & E1 & E2 & ->). simpl. rewrite Ht. simpl.
    rewrite E1. simpl. rewrite E2. reflexivity.
Qed.

(** On an item whose extracted value is a non-empty string the view is
    the distance of the engine. *)
Lemma examine_string (cfg : config) (key : option jsstring) (s : jsstring)
    (item : value) (c : jsstring) :
  extract key item = Ok (VStr c) -> c <> [] ->
  examine cfg key s item =
  Ok (Some (getEditDistance s (normalize cfg c),
            winner_of cfg key item (normalize cfg c))).
Proof.
  intros He Hc. unfold examine, normalize, winner_of. rewrite He.
  apply truthy_VStr in Hc. simpl in Hc |- *. rewrite Hc. simpl.
  destruct (caseSensitive cfg); reflexivity.
Qed.

Lemma considered_examine (cfg : config) (key : option jsstring) (str : jsstring)
    (item : value) (c : jsstring) (d : nat) (w : value) :
  considered cfg key str item c d w ->
  examine cfg key (normalize cfg str) item = Ok (Some (d, w)).
Proof.
  intros (He & Hc & -> & ->). apply examine_string; assumption.
Qed.

(** A well-formed item that is measured is a string candidate. *)
Lemma examine_well_formed (cfg : config) (key : option jsstring) (str : jsstring)
    (item : value) (d : nat) (w : value) :
  well_formed key item ->
  examine cfg key (normalize cfg str) item = Ok (Some (d, w)) ->
  exists c, considered cfg key str item c d w.
Proof.
  intros [Hs|[c [He Hc]]] H.
  - apply (examine_skipped cfg key (normalize cfg str)) in Hs. congruence.
  - rewrite (examine_string _ _ _ _ _ He Hc) in H. injection H as <- <-.
    exists c. repeat split; assumption.
Qed.

(** So is every measured item of a case-insensitive search: what is no
    string does not get past line 147. *)
Lemma examine_insensitive (cfg : config) (key : option jsstring) (str : jsstring)
    (item : value) (d : nat) (w : value) :
  caseSensitive cfg = false ->
  examine cfg key (normalize cfg str) item = Ok (Some (d, w)) ->
  exists c, considered cfg key str item c d w.
Proof.
  intros Hcs H. pose proof H as H'. apply examine_measured in H'.
  destruct H' as (v & v' & He & Ht & E1 & E2 & Hw).
  rewrite Hcs in E1. simpl in E1.
  destruct v; try discriminate. apply truthy_VStr in Ht.
  apply examine_well_formed; [|exact H]. right. exists s. auto.
Qed.


Lemma well_formed_examine (cfg : config) (key : option jsstring) (str : jsstring)
    (item : value) :
  well_formed key item -> exists r, examine cfg key str item = Ok r.
Proof.
  intros [H|[c [He Hc]]].
  - exists None. apply examine_skipped. exact H.
  - rewrite (examine_string _ _ _ _ _ He Hc). eauto.
Qed.

(** Only a record yields a property. *)
Lemma get_prop_Ok_record (item : value) (k : jsstring) (v : value) :
  get_prop item k = Ok v -> truthy item = true.
Proof. destruct item; simpl; try discriminate. reflexivity. Qed.

(** Whatever is kept as a winner is truthy, so the final [||] returns it. *)
Lemma examine_truthy (cfg : config) (key : option jsstring) (str : jsstring)
    (item : value) (d : nat) (w : value) :
  examine cfg key str item = Ok (Some (d, w)) -> truthy w = true.
Proof.
  unfold examine.
  destruct (extract key item) as [v|e|] eqn:He; simpl; try discriminate.
  destruct (truthy v) eqn:Ht; simpl; [|discriminate].
  destruct (if negb (caseSensitive cfg) then toLowerCase_call v else Ok v)
    as [v'|e|] eqn:E1; simpl; try discriminate.
  destruct (getEditDistance_call str v') as [d0|e|]; simpl; try discriminate.
  intros H. injection H as _ <-.
  destruct (key_given key && returnWinningObject cfg) eqn:Hmode.
  - apply andb_true_iff in Hmode. destruct Hmode as [Hk _].
    unfold key_given in Hk. unfold extract in He.
    destruct key as [k|]; [|discriminate]. rewrite Hk in He.
    eapply get_prop_Ok_record. exact He.
  - destruct (negb (caseSensitive cfg)).
    + destruct v; try discriminate. injection E1 as <-.
      apply truthy_VStr. apply toLowerCase_nonempty. apply truthy_VStr. exact Ht.
    + injection E1 as <-. exact Ht.
Qed.

(** The returned value determines the distance of the item behind it. *)
Lemma measured_same_winner (cfg : config) (key : option jsstring) (str : jsstring)
    (x y : value) (d d' : nat) (w : value) :
  measured cfg key str x d w -> measured cfg key str y d' w -> d = d'.
Proof.
  intros (v & v' & He & _ & E1 & E2 & Hw) (u & u' & He' & _ & E1' & E2' & Hw').
  destruct (key_given key && returnWinningObject cfg).
  - subst w. subst y. rewrite He in He'. injection He' as <-.
    rewrite E1 in E1'. injection E1' as <-. rewrite E2 in E2'.
    injection E2' as <-. reflexivity.
  - subst w. subst u'. rewrite E2 in E2'. injection E2' as <-. reflexivity.
Qed.

Lemma considered_same_winner (cfg : config) (key : option jsstring) (str : jsstring)
    (x y : value) (c c' : jsstring) (d d' : nat) (w : value) :
  considered cfg key str x c d w -> considered cfg key str y c' d' w -> d = d'.
Proof.
  intros Hx Hy. apply considered_examine, examine_measured in Hx.
  apply considered_examine, examine_measured in Hy.
  eapply measured_same_winner; eassumption.
Qed.

(** ** The forward pass *)

Lemma split_at_two {A : Type} (l1 l1' l2 l2' : list A) (x x' : A) :
  l1 ++ x :: l2 = l1' ++ x' :: l2' ->
  (l1 = l1' /\ x = x' /\ l2 = l2') \/ In x l1' \/ In x' l1.
Proof.
  revert l1'. induction l1 as [|y l1 IH]; intros [|y' l1'] H; simpl in H.
  - injection H as -> ->. auto.
  - injection H as -> _. right. left. left. reflexivity.
  - injection H as -> _. right. right. left. reflexivity.
  - injection H as -> H. destruct (IH _ H) as [(-> & -> & ->)|[H'|H']].
    + auto.
    + right. left. right. exact H'.
    + right. right. right. exact H'.
Qed.

Section Scan.
Variable cfg : config.
Variable key : option jsstring.
Variable str : jsstring.

(** What a completed pass leaves in the state: either nothing beat the
    initial best, or the state holds the first item of least distance
    among those that did. *)
Lemma scan_inv (items : list value) :
  forall st st',
    scan cfg key str items st = Ok st' ->
    (st' = st /\
     forall x v w, In x items -> examine cfg key str x = Ok (Some (v, w)) ->
                   beats v (winningVal st) = false)
    \/
    (exists l1 item l2 val w,
        items = l1 ++ item :: l2 /\
        examine cfg key str item = Ok (Some (val, w)) /\
        st' = {| winner := Some w; winningVal := Some (Qnat val) |} /\
        beats val (winningVal st) = true /\
        (forall x v w', In x l1 -> examine cfg key str x = Ok (Some (v, w')) ->
                        val < v) /\
        (forall x v w', In x l2 -> examine cfg key str x = Ok (Some (v, w')) ->
                        val <= v)).
Proof.
  induction items as [|a items IH]; intros st st' H; simpl in H.
  - injection H as <-. left. split; [reflexivity|]. intros x v w [].
  - rewrite scan_step_examine in H.
    destruct (examine cfg key str a) as [[[v w]|]|e|] eqn:E; simpl in H;
      [|  |discriminate|discriminate].
    + destruct (beats v (winningVal st)) eqn:B.
      * apply IH in H. simpl in H.
        destruct H as [[-> Hno]|(l1 & item & l2 & val & w0 & -> & Hex & -> & Hb & Hl1 & Hl2)].
        -- right. exists [], a, items, v, w. repeat split; auto.
           ++ intros x v' w' [].
           ++ intros x v' w' Hin Hx. apply beats_Qnat_false. eapply Hno; eassumption.
        -- right. exists (a :: l1), item, l2, val, w0.
           apply beats_Qnat in Hb. repeat split; auto.
           ++ eapply beats_trans; eassumption.
           ++ intros x v' w' [<-|Hin] Hx.
              ** rewrite E in Hx. injection Hx as <- <-. exact Hb.
              ** eapply Hl1; eassumption.
      * apply IH in H.
        destruct H as [[-> Hno]|(l1 & item & l2 & val & w0 & -> & Hex & -> & Hb & Hl1 & Hl2)].
        -- left. split; [reflexivity|].
           intros x v' w' [<-|Hin] Hx.
           ++ rewrite E in Hx. injection Hx as <- <-. exact B.
           ++ eapply Hno; eassumption.
        -- right. exists (a :: l1), item, l2, val, w0. repeat split; auto.
           intros x v' w' [<-|Hin] Hx.
           ++ rewrite E in Hx. injection Hx as <- <-.
              eapply beats_below; eassumption.
           ++ eapply Hl1; eassumption.
    + apply IH in H.
      destruct H as [[-> Hno]|(l1 & item & l2 & val & w0 & -> & Hex & -> & Hb & Hl1 & Hl2)].
      * left. split; [reflexivity|].
        intros x v' w' [<-|Hin] Hx; [congruence|]. eapply Hno; eassumption.
      * right. exists (a :: l1), item, l2, val, w0. repeat split; auto.
        intros x v' w' [<-|Hin] Hx; [congruence|]. eapply Hl1; eassumption.
Qed.

(** A pass over items that raise no exception completes. *)
Lemma scan_total (items : list value) :
  Forall (fun x => exists r, examine cfg key str x = Ok r) items ->
  forall st, exists st', scan cfg key str items st = Ok st'.
Proof.
  induction 1 as [|a items [r Ha] _ IH]; intros st; simpl.
  - eauto.
  - rewrite scan_step_examine, Ha. simpl.
    destruct r as [[v w]|]; [destruct (beats v (winningVal st))|]; apply IH.
Qed.

(** An item stopped at the gate leaves the pass as it is without it. *)
Lemma scan_skip (l1 l2 : list value) (item : value) :
  examine cfg key str item = Ok None ->
  forall st, scan cfg key str (l1 ++ item :: l2) st = scan cfg key str (l1 ++ l2) st.
Proof.
  intros Hs. induction l1 as [|a l1 IH]; intros st; simpl.
  - rewrite scan_step_examine, Hs. reflexivity.
  - destruct (scan_step cfg key str st a); simpl;
      [apply IH|reflexivity|reflexivity].
Qed.
End Scan.

(** ** The whole call *)

Lemma didYouMean_nonempty (fl : Q -> Q) (cfg : config) (str : jsstring)
    (list : list value) (key : option jsstring) :
  str <> [] ->
  didYouMean fl cfg (Some str) list key =
  st <- scan cfg key (normalize cfg str) list
          {| winner := None; winningVal := initial_best fl cfg str |} ;;
  match winner st with
  | Some w => if truthy w then Ok w else Throw ReferenceError
  | None => Throw ReferenceError
  end.
Proof.
  intros H. apply truthy_VStr in H. unfold didYouMean. rewrite H. reflexivity.
Qed.

(** A call that returns has returned the first item of least distance
    among those that beat the initial best. *)
Lemma didYouMean_Ok_inv (fl : Q -> Q) (cfg : config) (str : jsstring)
    (list : list value) (key : option jsstring) (w : value) :
  str <> [] ->
  didYouMean fl cfg (Some str) list key = Ok w ->
  exists l1 item l2 val,
    list = l1 ++ item :: l2 /\
    examine cfg key (normalize cfg str) item = Ok (Some (val, w)) /\
    beats val (initial_best fl cfg str) = true /\
    (forall x v w', In x l1 ->
       examine cfg key (normalize cfg str) x = Ok (Some (v, w')) -> val < v) /\
    (forall x v w', In x l2 ->
       examine cfg key (normalize cfg str) x = Ok (Some (v, w')) -> val <= v).
Proof.
  intros Hs H. rewrite didYouMean_nonempty in H by exact Hs.
  destruct (scan cfg key (normalize cfg str) list _) as [st|e|] eqn:E;
    simpl in H; try discriminate.
  apply scan_inv in E. simpl in E.
  destruct E as [[-> _]|(l1 & item & l2 & val & w0 & -> & Hex & -> & Hb & Hl1 & Hl2)];
    simpl in H; [discriminate|].
  destruct (truthy w0); [|discriminate]. injection H as ->.
  exists l1, item, l2, val. auto.
Qed.

(** Over items that raise nothing, the first item of least distance among
    those that beat the initial best is returned. *)
Lemma didYouMean_first_least_examined (fl : Q -> Q) (cfg : config) (str : jsstring)
    (key : option jsstring) (l1 l2 : list value) (item : value) (d : nat) (w : value) :
  str <> [] ->
  Forall (fun x => exists r, examine cfg key (normalize cfg str) x = Ok r)
    (l1 ++ item :: l2) ->
  examine cfg key (normalize cfg str) item = Ok (Some (d, w)) ->
  beats d (initial_best fl cfg str) = true ->
  (forall x v w', In x (l1 ++ item :: l2) ->
     examine cfg key (normalize cfg str) x = Ok (Some (v, w')) ->
     beats v (initial_best fl cfg str) = true -> d <= v) ->
  (forall x v w', In x l1 ->
     examine cfg key (normalize cfg str) x = Ok (Some (v, w')) -> v <> d) ->
  didYouMean fl cfg (Some str) (l1 ++ item :: l2) key = Ok w.
Proof.
  intros Hs Hok Hex Hb Hmin Hfirst.
  rewrite didYouMean_nonempty by exact Hs.
  destruct (scan_total cfg key (normalize cfg str) (l1 ++ item :: l2) Hok
              {| winner := None; winningVal := initial_best fl cfg str |})
    as [st' E].
  rewrite E. simpl.
  apply scan_inv in E. simpl in E.
  destruct E as [[-> Hno]|(l1' & item' & l2' & val & w0 & Heq & Hex' & -> & Hb' & Hl1 & Hl2)].
  - exfalso. rewrite (Hno item d w) in Hb; [discriminate| |exact Hex].
    apply in_or_app. right. left. reflexivity.
  - simpl. rewrite (examine_truthy _ _ _ _ _ _ Hex').
    assert (Hle : d <= val).
    { apply (Hmin item' val w0); auto. rewrite Heq.
      apply in_or_app. right. left. reflexivity. }
    destruct (split_at_two _ _ _ _ _ _ Heq) as [(-> & -> & ->)|[Hin|Hin]].
    + rewrite Hex in Hex'. injection Hex' as _ ->. reflexivity.
    + specialize (Hl1 _ _ _ Hin Hex). lia.
    + assert (val <> d) by (eapply Hfirst; eassumption).
      assert (val <= d); [|lia].
      assert (Hin' : In item (l1' ++ item' :: l2'))
        by (rewrite <- Heq; apply in_or_app; right; left; reflexivity).
      apply in_app_or in Hin'. destruct Hin' as [Hi|[->|Hi]].
      * specialize (Hl1 _ _ _ Hi Hex). lia.
      * rewrite Hex in Hex'. injection Hex' as -> _. lia.
      * exact (Hl2 _ _ _ Hi Hex).
Qed.

Lemma well_formed_all_examined (cfg : config) (key : option jsstring)
    (str : jsstring) (list : list value) :
  Forall (well_formed key) list ->
  Forall (fun x => exists r, examine cfg key str x = Ok r) list.
Proof.
  intros H. eapply Forall_impl; [|exact H]. intros x. apply well_formed_examine.
Qed.

(** Over well-formed items, likewise. *)
Lemma didYouMean_first_least (fl : Q -> Q) (cfg : config) (str : jsstring)
    (key : option jsstring) (l1 l2 : list value) (item : value) (d : nat) (w : value) :
  str <> [] ->
  Forall (well_formed key) (l1 ++ item :: l2) ->
  examine cfg key (normalize cfg str) item = Ok (Some (d, w)) ->
  beats d (initial_best fl cfg str) = true ->
  (forall x v w', In x (l1 ++ item :: l2) ->
     examine cfg key (normalize cfg str) x = Ok (Some (v, w')) ->
     beats v (initial_best fl cfg str) = true -> d <= v) ->
  (forall x v w', In x l1 ->
     examine cfg key (normalize cfg str) x = Ok (Some (v, w')) -> v <> d) ->
  didYouMean fl cfg (Some str) (l1 ++ item :: l2) key = Ok w.
Proof.
  intros Hs Hwf. apply didYouMean_first_least_examined; [exact Hs|].
  apply well_formed_all_examined. exact Hwf.
Qed.

Lemma beats_initial_qualifies (fl : Q -> Q) (cfg : config) (str : jsstring) (d : nat) :
  beats d (initial_best fl cfg str) = true <-> qualifies fl cfg str d.
Proof.
  unfold initial_best, qualifies.
  destruct (threshold cfg) as [t|]; simpl.
  - rewrite Qltb_lt. split.
    + intros H t' Ht. injection Ht as <-. exact H.
    + intros H. apply H. reflexivity.
  - split; [intros _ t Ht; discriminate|reflexivity].
Qed.

(** Without a winner the last line raises, whatever [nullResultValue] is. *)
Lemma no_winner_raises (fl : Q -> Q) (cfg : config) (str : jsstring)
    (list : list value) (key : option jsstring) (st : state) :
  str <> [] ->
  scan cfg key (normalize cfg str) list
    {| winner := None; winningVal := initial_best fl cfg str |} = Ok st ->
  winner st = None ->
  didYouMean fl cfg (Some str) list key = Throw ReferenceError.
Proof.
  intros Hs E Hw. rewrite didYouMean_nonempty by exact Hs.
  rewrite E. simpl. rewrite Hw. reflexivity.
Qed.

(** A record without the key stops at the gate, unless the key names
    something that records inherit. *)
Lemma missing_key_skipped (k : jsstring) (props : list (jsstring * value)) :
  k <> [] -> lookup k props = None ->
  existsb (jsstring_eqb k) object_prototype_members = false ->
  skipped (Some k) (VObj props).
Proof.
  intros Hk Hl Hp. exists VUndefined. unfold extract.
  apply truthy_VStr in Hk. rewrite Hk. unfold get_prop. rewrite Hl, Hp. auto.
Qed.

(** X16.  With no qualifying candidate in a well-formed list the call
    raises a ReferenceError: the no-match value is never reached. *)
Lemma no_qualifying_candidate_raises (fl : Q -> Q) (cfg : config) (str : jsstring)
    (list : list value) (key : option jsstring) :
  str <> [] ->
  Forall (well_formed key) list ->
  (forall x c d w, In x list -> considered cfg key str x c d w ->
                   ~ qualifies fl cfg str d) ->
  didYouMean fl cfg (Some str) list key = Throw ReferenceError.
Proof.
  intros Hs Hwf Hnone.
  destruct (scan_total cfg key (normalize cfg str) list
              (well_formed_all_examined _ _ _ _ Hwf)
              {| winner := None; winningVal := initial_best fl cfg str |})
    as [st' E].
  apply (no_winner_raises fl cfg str list key st' Hs E).
  apply scan_inv in E. simpl in E.
  destruct E as [[-> _]|(l1 & item & l2 & val & w0 & -> & Hex & _ & Hb & _)];
    [reflexivity|].
  exfalso.
  assert (Hin : In item (l1 ++ item :: l2))
    by (apply in_or_app; right; left; reflexivity).
  destruct (examine_well_formed cfg key str item val w0) as [c Hc];
    [exact (proj1 (Forall_forall _ _) Hwf item Hin)|exact Hex|].
  apply (Hnone item c val w0 Hin Hc). apply beats_initial_qualifies. exact Hb.
Qed.

Lemma scan_app (cfg : config) (key : option jsstring) (str : jsstring)
    (l1 l2 : list value) :
  forall st,
    scan cfg key str (l1 ++ l2) st =
    st1 <- scan cfg key str l1 st ;; scan cfg key str l2 st1.
Proof.
  induction l1 as [|a l1 IH]; intros st; simpl; [reflexivity|].
  destruct (scan_step cfg key str st a); simpl;
    [apply IH|reflexivity|reflexivity].
Qed.

(** X17.  A truthy extracted value that is not a string passes the gate
    and raises a TypeError, after well-formed items and whatever follows:
    a number or a boolean always, a record or an array when the search
    is case-insensitive. *)
Lemma non_string_candidate_raises (fl : Q -> Q) (cfg : config) (str : jsstring)
    (key : option jsstring) (l1 l2 : list value) (item v : value) :
  str <> [] ->
  Forall (well_formed key) l1 ->
  extract key item = Ok v ->
  truthy v = true ->
  (forall s, v <> VStr s) ->
  caseSensitive cfg = false \/ (exists q, v = VNum q) \/ (exists b, v = VBool b) ->
  didYouMean fl cfg (Some str) (l1 ++ item :: l2) key = Throw TypeError.
Proof.
  intros Hs Hwf He Ht Hv Hcase.
  rewrite didYouMean_nonempty by exact Hs. rewrite scan_app.
  destruct (scan_total cfg key (normalize cfg str) l1
              (well_formed_all_examined _ _ _ _ Hwf)
              {| winner := None; winningVal := initial_best fl cfg str |})
    as [st1 E].
  rewrite E. simpl. unfold scan_step. rewrite He. simpl. rewrite Ht. simpl.
  assert (Hn : Nat.eqb (List.length (normalize cfg str)) 0 = false).
  { apply (normalize_nonempty cfg) in Hs.
    destruct (normalize cfg str); [congruence|reflexivity]. }
  destruct (caseSensitive cfg) eqn:Hcs; simpl.
  - destruct Hcase as [Hc|[[q ->]|[b ->]]]; [discriminate| |];
      simpl; rewrite Hn; reflexivity.
  - destruct v; simpl; try reflexivity. exfalso. eapply Hv. reflexivity.
Qed.

(** * The claims *)

(** ** The distance engine *)

(** C2.  For all strings [a] and [b], [getEditDistance a b] is the
    Levenshtein distance of [a] and [b]: that many single-character
    insertions, deletions and substitutions transform [a] into [b] and no
    fewer do.  It is the cell [[b.length][a.length]] of the recurrence with
    base cases [[i][0] = i] and [[0][j] = j], and when either string is
    empty it is the length of the other. *)
Theorem getEditDistance_levenshtein (a b : jsstring) :
  levenshtein a b (getEditDistance a b) /\
  getEditDistance a b = recurrence a b (List.length b) (List.length a) /\
  getEditDistance [] b = List.length b /\
  getEditDistance a [] = List.length a.
Proof.
  split; [|split; [apply getEditDistance_recurrence|split]].
  - unfold levenshtein. rewrite getEditDistance_lev.
    split; [apply lev_edits|intros n; apply lev_least].
  - reflexivity.
  - unfold getEditDistance. destruct (List.length a); reflexivity.
Qed.

(** C8.  The distance is symmetric:
    [getEditDistance a b = getEditDistance b a], although the grid takes
    [b] for its rows and [a] for its columns. *)
Theorem getEditDistance_symmetric (a b : jsstring) :
  getEditDistance a b = getEditDistance b a.
Proof. rewrite !getEditDistance_lev. apply lev_sym. Qed.

(** C9.  The triangle inequality:
    [getEditDistance a c <= getEditDistance a b + getEditDistance b c]. *)
Theorem getEditDistance_triangle (a b c : jsstring) :
  getEditDistance a c <= getEditDistance a b + getEditDistance b c.
Proof. rewrite !getEditDistance_lev. apply lev_triangle. Qed.

(** ** The matcher *)

(** C1 (the code departs from the claim).  On the README's own example of
    an input that no candidate matches, the call does not return the
    configured [nullResultValue]: evaluating the misspelt [argument] of
    the last line raises a ReferenceError, whatever that value is. *)
Theorem no_match_raises_ReferenceError :
  didYouMean no_rounding defaults (Some (js "google plus")) readme_list None
  = Throw ReferenceError /\
  didYouMean no_rounding
    (mkConfig (Some (4 # 10)) false (VStr (js "no match")) false)
    (Some (js "google plus")) readme_list None
  = Throw ReferenceError.
Proof. split; vm_compute; reflexivity. Qed.

(** C3.  An empty or absent input returns the boolean [false] at once,
    for every candidate list, key and configuration (the configured
    [nullResultValue] plays no part). *)
Theorem empty_input_returns_false (fl : Q -> Q) (cfg : config)
    (list : list value) (key : option jsstring) :
  didYouMean fl cfg (Some []) list key = Ok (VBool false) /\
  didYouMean fl cfg None list key = Ok (VBool false).
Proof. split; reflexivity. Qed.

(** C4, as stated, fails: a record whose key holds the number [5] (a
    truthy value that is not a string) is not skipped.  The call that
    returns ["instagram"] without it raises a TypeError with it. *)
Lemma truthy_non_string_candidate_raises :
  extract (Some (js "id")) (VObj [(js "id", VNum 5)]) = Ok (VNum 5) /\
  didYouMean no_rounding defaults (Some (js "instagram"))
    [VObj [(js "id", VStr (js "instagram"))]] (Some (js "id"))
  = Ok (VStr (js "instagram")) /\
  didYouMean no_rounding defaults (Some (js "instagram"))
    [VObj [(js "id", VStr (js "instagram"))]; VObj [(js "id", VNum 5)]]
    (Some (js "id"))
  = Throw TypeError.
Proof. repeat split; vm_compute; reflexivity. Qed.

(** C4, amended.  A candidate whose extracted value is falsy (a record
    without the key, or one holding [null], [false], [0] or the empty
    string) is skipped: the call behaves exactly as on the list without
    it, so it never wins and changes nothing for the other candidates. *)
Theorem skipped_candidate_is_ignored (fl : Q -> Q) (cfg : config)
    (str : option jsstring) (key : option jsstring)
    (l1 l2 : list value) (item : value) :
  skipped key item ->
  didYouMean fl cfg str (l1 ++ item :: l2) key =
  didYouMean fl cfg str (l1 ++ l2) key.
Proof.
  intros Hs. destruct str as [str|]; [|reflexivity].
  unfold didYouMean. destruct (negb (truthy (VStr str))); [reflexivity|].
  cbv zeta. rewrite scan_skip; [reflexivity|].
  apply examine_skipped. exact Hs.
Qed.

Lemma skipped_candidate_is_ignored_witness :
  skipped (Some (js "id")) (VObj [(js "name", VStr (js "instagram"))]) /\
  didYouMean no_rounding defaults (Some (js "insargrm"))
    ([VObj [(js "id", VStr (js "resume"))]] ++
     VObj [(js "name", VStr (js "instagram"))] ::
     [VObj [(js "id", VStr (js "instagram"))]])
    (Some (js "id")) =
  didYouMean no_rounding defaults (Some (js "insargrm"))
    ([VObj [(js "id", VStr (js "resume"))]] ++
     [VObj [(js "id", VStr (js "instagram"))]])
    (Some (js "id")).
Proof.
  assert (H : skipped (Some (js "id")) (VObj [(js "name", VStr (js "instagram"))])).
  { exists VUndefined. split; reflexivity. }
  split; [exact H|].
  apply (skipped_candidate_is_ignored no_rounding defaults
           (Some (js "insargrm")) (Some (js "id"))
           [VObj [(js "id", VStr (js "resume"))]]
           [VObj [(js "id", VStr (js "instagram"))]]
           (VObj [(js "name", VStr (js "instagram"))]) H).
Defined.

Lemma lev_le_max (s t : jsstring) :
  lev s t <= Nat.max (List.length s) (List.length t).
Proof.
  revert t. induction s as [|x s IH]; intros t; [simpl; lia|].
  destruct t as [|y t]; [rewrite lev_nil_r; lia|].
  pose proof (lev_cons_cons_le x y s t). specialize (IH t).
  simpl List.length. lia.
Qed.

(** A rounding that is monotone and exact on the integers up to [2^53],
    as rounding to the nearest binary64 is, does not lift the bound over
    such an integer. *)
Lemma rounding_keeps_the_bound (fl : Q -> Q) (q : Q) (d : nat) :
  (forall q1 q2 : Q, (q1 <= q2)%Q -> (fl q1 <= fl q2)%Q) ->
  (forall k : nat, (Z.of_nat k <= 2 ^ 53)%Z -> (fl (Qnat k) == Qnat k)%Q) ->
  (Z.of_nat d <= 2 ^ 53)%Z ->
  (Qnat d < fl q)%Q -> (Qnat d < q)%Q.
Proof.
  intros Hmono Hexact Hd Hlt.
  destruct (Qlt_le_dec (Qnat d) q) as [H|H]; [exact H|].
  exfalso. apply (Qlt_not_le _ _ Hlt).
  rewrite <- (Hexact d Hd). apply Hmono. exact H.
Qed.

(** The distance computed for an item is at most the greater length of
    the two strings compared, or the length of the input. *)
Lemma measured_within_limit (cfg : config) (key : option jsstring)
    (str : jsstring) (item : value) (d : nat) (w : value) :
  within_limit (normalize cfg str) ->
  (forall c, extract key item = Ok (VStr c) -> within_limit (normalize cfg c)) ->
  measured cfg key str item d w ->
  (Z.of_nat d <= 2 ^ 53)%Z.
Proof.
  unfold within_limit, max_string_length.
  intros Hstr Hcand (v & v' & He & _ & E1 & E2 & _).
  assert (Hmax : forall c, v = VStr c -> v' = VStr (normalize cfg c)).
  { intros c ->. unfold normalize. destruct (negb (caseSensitive cfg));
      simpl in E1; injection E1 as <-; reflexivity. }
  destruct v' as [| |b|q|s|props|elems]; unfold getEditDistance_call in E2;
    try discriminate.
  - destruct (Nat.eqb (List.length (normalize cfg str)) 0); discriminate.
  - destruct (Nat.eqb (List.length (normalize cfg str)) 0); discriminate.
  - injection E2 as <-.
    assert (Hs : exists c, v = VStr c /\ s = normalize cfg c).
    { destruct (negb (caseSensitive cfg)).
      - destruct v; try discriminate. exists s0.
        split; [reflexivity|]. specialize (Hmax s0 eq_refl). congruence.
      - injection E1 as ->. exists s.
        split; [reflexivity|]. specialize (Hmax s eq_refl). congruence. }
    destruct Hs as (c & -> & ->). specialize (Hcand c He).
    rewrite getEditDistance_lev.
    pose proof (lev_le_max (normalize cfg str) (normalize cfg c)). lia.
  - destruct (Nat.eqb (List.length (normalize cfg str)) 0); [discriminate|].
    destruct (get_prop (VObj props) (js "length")) as [len|e|];
      unfold bind in E2; try discriminate.
    destruct (loose_eq_zero len) as [[]|e|]; try discriminate.
    injection E2 as <-. lia.
  - destruct (Nat.eqb (List.length (normalize cfg str)) 0); [discriminate|].
    destruct (Nat.eqb (List.length elems) 0); [|discriminate].
    injection E2 as <-. lia.
Qed.

(** C5, as stated, fails: the bound is taken on the length of the
    lower-cased input, which can exceed that of the input.  The input of
    three U+0130 lower-cases to six code units; the candidate of four is
    two edits away, which is below [0.4 * 6] and not below [0.4 * 3], and
    is returned. *)
Lemma lowered_length_sets_the_bound :
  didYouMean no_rounding defaults (Some [304; 304; 304]%N)
    [VStr [105; 775; 105; 775]%N] None
  = Ok (VStr [105; 775; 105; 775]%N) /\
  getEditDistance (toLowerCase [304; 304; 304]%N)
                  (toLowerCase [105; 775; 105; 775]%N) = 2 /\
  ~ (Qnat 2 < (4 # 10) * Qnat (List.length [304; 304; 304]%N))%Q.
Proof.
  split; [vm_compute; reflexivity|split; [vm_compute; reflexivity|]].
  intros H. vm_compute in H. discriminate H.
Qed.

(** C5, amended.  With a threshold [t >= 0] set, a value returned for a
    non-empty input comes from a candidate whose computed distance is
    strictly below [t] times the length of the input as it is compared
    (lower-cased unless the search is case-sensitive), and no candidate
    at or above that bound stands behind the returned value.  Strings
    are within the length limit of the language, and the rounding [fl] of
    the product is monotone and exact on the integers up to [2^53], as
    rounding to the nearest binary64 is. *)
Theorem threshold_bounds_the_winner (fl : Q -> Q) (cfg : config)
    (str : jsstring) (list : list value) (key : option jsstring) (t : Q) (w : value) :
  (forall q1 q2 : Q, (q1 <= q2)%Q -> (fl q1 <= fl q2)%Q) ->
  (forall k : nat, (Z.of_nat k <= 2 ^ 53)%Z -> (fl (Qnat k) == Qnat k)%Q) ->
  threshold cfg = Some t ->
  (0 <= t)%Q ->
  str <> [] ->
  within_limit (normalize cfg str) ->
  (forall item c, In item list -> extract key item = Ok (VStr c) ->
                  within_limit (normalize cfg c)) ->
  didYouMean fl cfg (Some str) list key = Ok w ->
  (exists item d,
      In item list /\ measured cfg key str item d w /\
      (Qnat d < t * Qnat (List.length (normalize cfg str)))%Q) /\
  (forall item d,
      In item list -> measured cfg key str item d w ->
      (Qnat d < t * Qnat (List.length (normalize cfg str)))%Q).
Proof.
  intros Hmono Hexact Ht _ Hs Hstr Hcand H.
  destruct (didYouMean_Ok_inv _ _ _ _ _ _ Hs H)
    as (l1 & item & l2 & val & -> & Hex & Hb & _ & _).
  apply examine_measured in Hex.
  assert (Hin : In item (l1 ++ item :: l2))
    by (apply in_or_app; right; left; reflexivity).
  assert (Hlt : (Qnat val < t * Qnat (List.length (normalize cfg str)))%Q).
  { apply beats_initial_qualifies in Hb. specialize (Hb t Ht).
    apply (rounding_keeps_the_bound fl _ val Hmono Hexact); [|exact Hb].
    apply (measured_within_limit cfg key str item val w Hstr); [|exact Hex].
    intros c. apply Hcand. exact Hin. }
  split.
  - exists item, val. auto.
  - intros item' d' _ Hm'.
    rewrite (measured_same_winner _ _ _ _ _ _ _ _ Hm' Hex). exact Hlt.
Qed.

Lemma threshold_bounds_the_winner_witness :
  (exists item d,
      In item readme_list /\
      measured defaults None (js "insargrm") item d (VStr (js "instagram")) /\
      (Qnat d < (4 # 10) * Qnat (List.length (normalize defaults (js "insargrm"))))%Q) /\
  (forall item d,
      In item readme_list ->
      measured defaults None (js "insargrm") item d (VStr (js "instagram")) ->
      (Qnat d < (4 # 10) * Qnat (List.length (normalize defaults (js "insargrm"))))%Q).
Proof.
  apply (threshold_bounds_the_winner no_rounding defaults (js "insargrm")
           readme_list None (4 # 10) (VStr (js "instagram"))).
  - intros q1 q2 Hq. exact Hq.
  - intros k Hk. reflexivity.
  - reflexivity.
  - vm_compute. discriminate.
  - nonempty.
  - vm_compute. discriminate.
  - intros item c Hin He. simpl in Hin.
    destruct Hin as [<-|[<-|[<-|[<-|[]]]]]; injection He as <-;
      vm_compute; discriminate.
  - vm_compute. reflexivity.
Defined.

(** C6, as stated, fails: a list with two qualifying candidates at the
    same least distance and a number after them raises a TypeError. *)
Lemma malformed_candidate_breaks_the_tie :
  getEditDistance (toLowerCase (js "abc")) (toLowerCase (js "abd")) = 1 /\
  getEditDistance (toLowerCase (js "abc")) (toLowerCase (js "abe")) = 1 /\
  (Qnat 1 < (4 # 10) * Qnat (List.length (toLowerCase (js "abc"))))%Q /\
  didYouMean no_rounding defaults (Some (js "abc"))
    [VStr (js "abd"); VStr (js "abe"); VNum 5] None
  = Throw TypeError.
Proof. repeat split; vm_compute; reflexivity. Qed.

(** C6, amended.  Among well-formed candidates and for a non-empty input,
    the earliest candidate that attains the least distance of the
    qualifying candidates is the one returned: a later candidate at the
    same distance never replaces it. *)
Theorem ties_go_to_the_earliest (fl : Q -> Q) (cfg : config) (str : jsstring)
    (key : option jsstring) (l1 l2 : list value) (item : value)
    (c : jsstring) (d : nat) (w : value) :
  str <> [] ->
  Forall (well_formed key) (l1 ++ item :: l2) ->
  considered cfg key str item c d w ->
  qualifies fl cfg str d ->
  (forall x c' d' w',
      In x (l1 ++ item :: l2) -> considered cfg key str x c' d' w' ->
      qualifies fl cfg str d' -> d <= d') ->
  (forall x c' d' w',
      In x l1 -> considered cfg key str x c' d' w' -> d' <> d) ->
  didYouMean fl cfg (Some str) (l1 ++ item :: l2) key = Ok w.
Proof.
  intros Hs Hwf Hc Hq Hmin Hfirst.
  assert (Hall : forall x, In x (l1 ++ item :: l2) -> well_formed key x)
    by (apply Forall_forall; exact Hwf).
  apply (didYouMean_first_least fl cfg str key l1 l2 item d w); auto.
  - eapply considered_examine. exact Hc.
  - apply beats_initial_qualifies. exact Hq.
  - intros x v w' Hin Hx Hb.
    destruct (examine_well_formed _ _ _ _ _ _ (Hall x Hin) Hx) as [c' Hx'].
    apply (Hmin x c' v w'); auto.
    apply beats_initial_qualifies. exact Hb.
  - intros x v w' Hin Hx.
    assert (Hin' : In x (l1 ++ item :: l2)) by (apply in_or_app; auto).
    destruct (examine_well_formed _ _ _ _ _ _ (Hall x Hin') Hx) as [c' Hx'].
    apply (Hfirst x c' v w'); auto.
Qed.

Lemma ties_go_to_the_earliest_witness :
  didYouMean no_rounding defaults (Some (js "abc"))
    ([VStr (js "xyz")] ++ VStr (js "abd") :: [VStr (js "abe")]) None
  = Ok (VStr (js "abd")).
Proof.
  apply (ties_go_to_the_earliest no_rounding defaults (js "abc") None
           [VStr (js "xyz")] [VStr (js "abe")] (VStr (js "abd")) (js "abd") 1
           (VStr (js "abd"))).
  - nonempty.
  - repeat (apply Forall_cons;
            [right; eexists; (split; [reflexivity|nonempty])|]).
    apply Forall_nil.
  - repeat split; nonempty.
  - intros t Ht. injection Ht as <-. vm_compute. reflexivity.
  - intros x c' d' w' Hin (He & _ & -> & _) _.
    simpl in Hin. destruct Hin as [<-|[<-|[<-|[]]]];
      injection He as <-; vm_compute; lia.
  - intros x c' d' w' Hin (He & _ & -> & _).
    simpl in Hin. destruct Hin as [<-|[]].
    injection He as <-. vm_compute. discriminate.
Defined.

(** Over well-formed items the call returns as soon as one item beats the
    initial best. *)
Lemma didYouMean_returns (fl : Q -> Q) (cfg : config) (str : jsstring)
    (list : list value) (key : option jsstring) :
  str <> [] ->
  Forall (well_formed key) list ->
  (exists x d w, In x list /\
      examine cfg key (normalize cfg str) x = Ok (Some (d, w)) /\
      beats d (initial_best fl cfg str) = true) ->
  exists w, didYouMean fl cfg (Some str) list key = Ok w.
Proof.
  intros Hs Hwf (x & d & w & Hin & Hex & Hb).
  rewrite didYouMean_nonempty by exact Hs.
  destruct (scan_total cfg key (normalize cfg str) list
              (well_formed_all_examined _ _ _ _ Hwf)
              {| winner := None; winningVal := initial_best fl cfg str |})
    as [st' E].
  rewrite E. simpl. apply scan_inv in E. simpl in E.
  destruct E as [[-> Hno]|(l1 & item & l2 & val & w0 & _ & Hex' & -> & _)].
  - rewrite (Hno x d w Hin Hex) in Hb. discriminate.
  - simpl. rewrite (examine_truthy _ _ _ _ _ _ Hex'). eauto.
Qed.

(** C7, as stated, fails: with the threshold unset and nothing to choose
    from, no candidate is returned. *)
Lemma null_threshold_empty_list_returns_no_candidate :
  didYouMean no_rounding (mkConfig None false VNull false) (Some (js "a")) [] None
  = Throw ReferenceError.
Proof. vm_compute. reflexivity. Qed.

(** C7, amended.  With the threshold unset, a non-empty input and a
    well-formed list in which at least one candidate passes the gate, the
    call returns the earliest candidate of least edit distance among those
    that pass the gate, however large that distance is. *)
Theorem null_threshold_returns_the_closest (fl : Q -> Q) (cfg : config)
    (str : jsstring) (list : list value) (key : option jsstring) :
  threshold cfg = None ->
  str <> [] ->
  Forall (well_formed key) list ->
  (exists x c, In x list /\ extract key x = Ok (VStr c) /\ c <> []) ->
  exists l1 item l2 c d w,
    list = l1 ++ item :: l2 /\
    considered cfg key str item c d w /\
    didYouMean fl cfg (Some str) list key = Ok w /\
    (forall x c' d' w',
        In x list -> considered cfg key str x c' d' w' -> d <= d') /\
    (forall x c' d' w',
        In x l1 -> considered cfg key str x c' d' w' -> d < d').
Proof.
  intros Ht Hs Hwf (x & c0 & Hin & Hx & Hc0).
  assert (Hret : exists w, didYouMean fl cfg (Some str) list key = Ok w).
  { apply didYouMean_returns; auto.
    exists x, (getEditDistance (normalize cfg str) (normalize cfg c0)),
      (winner_of cfg key x (normalize cfg c0)).
    split; [exact Hin|split].
    - apply examine_string; assumption.
    - unfold initial_best. rewrite Ht. reflexivity. }
  destruct Hret as [w Hw].
  destruct (didYouMean_Ok_inv _ _ _ _ _ _ Hs Hw)
    as (l1 & item & l2 & d & -> & Hex & _ & Hl1 & Hl2).
  assert (Hitem : well_formed key item).
  { apply (proj1 (Forall_forall _ _) Hwf). apply in_or_app. right. left.
    reflexivity. }
  destruct (examine_well_formed _ _ _ _ _ _ Hitem Hex) as [c Hc].
  exists l1, item, l2, c, d, w. repeat split; try apply Hc; auto.
  - intros y c' d' w' Hy Hcy.
    pose proof (considered_examine _ _ _ _ _ _ _ Hcy) as Hey.
    apply in_app_or in Hy. destruct Hy as [Hy|[<-|Hy]].
    + specialize (Hl1 _ _ _ Hy Hey). lia.
    + rewrite Hex in Hey. injection Hey as -> _. lia.
    + exact (Hl2 _ _ _ Hy Hey).
  - intros y c' d' w' Hy Hcy. apply (Hl1 y d' w' Hy).
    eapply considered_examine. exact Hcy.
Qed.

Lemma null_threshold_returns_the_closest_witness :
  exists l1 item l2 c d w,
    [VStr (js "mississippi river"); VStr []; VStr (js "Ohio")]
    = l1 ++ item :: l2 /\
    considered (mkConfig None false VNull false) None (js "o") item c d w /\
    didYouMean no_rounding (mkConfig None false VNull false) (Some (js "o"))
      [VStr (js "mississippi river"); VStr []; VStr (js "Ohio")] None = Ok w /\
    (forall x c' d' w',
        In x [VStr (js "mississippi river"); VStr []; VStr (js "Ohio")] ->
        considered (mkConfig None false VNull false) None (js "o") x c' d' w' ->
        d <= d') /\
    (forall x c' d' w',
        In x l1 ->
        considered (mkConfig None false VNull false) None (js "o") x c' d' w' ->
        d < d').
Proof.
  apply (null_threshold_returns_the_closest no_rounding
           (mkConfig None false VNull false) (js "o")
           [VStr (js "mississippi river"); VStr []; VStr (js "Ohio")] None).
  - reflexivity.
  - nonempty.
  - apply Forall_cons; [right; eexists; (split; [reflexivity|nonempty])|].
    apply Forall_cons; [left; eexists; (split; reflexivity)|].
    apply Forall_cons; [right; eexists; (split; [reflexivity|nonempty])|].
    apply Forall_nil.
  - exists (VStr (js "Ohio")), (js "Ohio"). split; [simpl; auto|].
    split; [reflexivity|nonempty].
Defined.

Example null_threshold_far_candidate :
  didYouMean no_rounding (mkConfig None false VNull false) (Some (js "o"))
    [VStr (js "mississippi river"); VStr []; VStr (js "Ohio")] None
  = Ok (VStr (js "ohio")).
Proof. vm_compute. reflexivity. Qed.



(** * Further properties of the distance engine *)

Lemma lev_zero_eq (s t : jsstring) : lev s t = 0 -> s = t.
Proof.
  intros H. pose proof (lev_edits s t) as E. rewrite H in E.
  inversion E. reflexivity.
Qed.

Lemma getEditDistance_same (a : jsstring) : getEditDistance a a = 0.
Proof. rewrite getEditDistance_lev. apply lev_refl. Qed.

Lemma getEditDistance_zero (a b : jsstring) : getEditDistance a b = 0 -> a = b.
Proof. rewrite getEditDistance_lev. apply lev_zero_eq. Qed.

(** X1.  The distance of two strings is zero exactly when they are the
    same string. *)
Theorem getEditDistance_zero_iff (a b : jsstring) :
  getEditDistance a b = 0 <-> a = b.
Proof.
  split; [apply getEditDistance_zero|].
  intros ->. apply getEditDistance_same.
Qed.

Lemma edit1_length (s t : jsstring) :
  edit1 s t -> List.length s <= S (List.length t) /\ List.length t <= S (List.length s).
Proof.
  intros [l c r|l c r|l c c' r]; rewrite !length_app; simpl; lia.
Qed.

Lemma edits_length (n : nat) (s t : jsstring) :
  edits n s t ->
  List.length s <= n + List.length t /\ List.length t <= n + List.length s.
Proof.
  induction 1 as [s|n s u t H1 _ IH]; [lia|].
  apply edit1_length in H1. lia.
Qed.

(** X2.  The distance lies between the difference of the two lengths and
    the greater of them. *)
Theorem getEditDistance_bounds (a b : jsstring) :
  List.length a - List.length b <= getEditDistance a b /\
  List.length b - List.length a <= getEditDistance a b /\
  getEditDistance a b <= Nat.max (List.length a) (List.length b).
Proof.
  rewrite getEditDistance_lev.
  pose proof (edits_length _ _ _ (lev_edits a b)) as [H1 H2].
  pose proof (lev_le_max a b).
  lia.
Qed.

Lemma lev_common_prefix (p s t : jsstring) : lev (p ++ s) (p ++ t) = lev s t.
Proof.
  induction p as [|x p IH]; [reflexivity|].
  simpl app. rewrite lev_cons_cons, N.eqb_refl. exact IH.
Qed.

Lemma lev_common_suffix (q s t : jsstring) : lev (s ++ q) (t ++ q) = lev s t.
Proof.
  rewrite <- (lev_rev (s ++ q)), !rev_app_distr, lev_common_prefix.
  apply lev_rev.
Qed.

(** X3.  A prefix and a suffix shared by the two strings do not count:
    the distance is that of what lies between them. *)
Theorem getEditDistance_common_affixes (p q a b : jsstring) :
  getEditDistance (p ++ a ++ q) (p ++ b ++ q) = getEditDistance a b.
Proof.
  rewrite !getEditDistance_lev, lev_common_prefix. apply lev_common_suffix.
Qed.

Lemma edit1_map (f : code_unit -> code_unit) (s t : jsstring) :
  edit1 s t -> edit1 (map f s) (map f t).
Proof.
  intros [l c r|l c r|l c c' r]; rewrite !map_app; simpl; constructor.
Qed.

Lemma edits_map (f : code_unit -> code_unit) (n : nat) (s t : jsstring) :
  edits n s t -> edits n (map f s) (map f t).
Proof.
  induction 1 as [s|n s u t H1 _ IH]; [constructor|].
  eapply edits_step; [apply edit1_map; exact H1|exact IH].
Qed.

(** On text of Basic Latin, lower-casing maps code units one by one. *)
Lemma toLowerCase_ascii_text (s : jsstring) :
  ascii_text s ->
  toLowerCase s =
  map (fun c : code_unit => if ((65 <=? c) && (c <=? 90))%N then (c + 32)%N else c) s.
Proof.
  induction 1 as [|c s Hc _ IH]; [reflexivity|].
  change (toLowerCase (c :: s)) with (lower_unit c ++ toLowerCase s).
  rewrite IH. simpl map. unfold lower_unit.
  destruct ((65 <=? c) && (c <=? 90))%N; [reflexivity|].
  assert (H1 : (192 <=? c)%N = false) by (apply N.leb_gt; lia).
  assert (H2 : (c =? 304)%N = false) by (apply N.eqb_neq; lia).
  rewrite H1, H2. reflexivity.
Qed.

(** X4.  Lower-casing two strings of Basic Latin never increases their
    distance: on such text a case-insensitive comparison finds every
    candidate at least as close as a case-sensitive one. *)
Theorem getEditDistance_toLowerCase_le (a b : jsstring) :
  ascii_text a -> ascii_text b ->
  getEditDistance (toLowerCase a) (toLowerCase b) <= getEditDistance a b.
Proof.
  intros Ha Hb.
  rewrite !getEditDistance_lev, (toLowerCase_ascii_text a Ha),
    (toLowerCase_ascii_text b Hb).
  apply lev_least, edits_map, lev_edits.
Qed.

Lemma getEditDistance_toLowerCase_le_witness :
  getEditDistance (toLowerCase (js "Resume")) (toLowerCase (js "resUME"))
  <= getEditDistance (js "Resume") (js "resUME").
Proof.
  apply (getEditDistance_toLowerCase_le (js "Resume") (js "resUME")).
  - repeat constructor.
  - repeat constructor.
Defined.
(** ** The shape of the grid *)

Lemma length_array_set {A : Type} (hole : A) (arr : list A) (k : nat) (v : A) :
  List.length (array_set hole arr k v) = Nat.max (List.length arr) (S k).
Proof.
  revert arr. induction k as [|k IH]; intros [|x rest];
    simpl List.length; rewrite ?IH; simpl List.length; lia.
Qed.

Lemma row_set_cell_same (m : matrix_t) (i j v : nat) :
  array_get [] (set_cell m i j v) i = array_set 0 (array_get [] m i) j v.
Proof. unfold set_cell. apply array_get_set_same. Qed.

Lemma row_set_cell_other (m : matrix_t) (i j v i' : nat) :
  i <> i' -> array_get [] (set_cell m i j v) i' = array_get [] m i'.
Proof. intros H. unfold set_cell. apply array_get_set_other. exact H. Qed.

Lemma length_set_cell (m : matrix_t) (i j v : nat) :
  i < List.length m -> List.length (set_cell m i j v) = List.length m.
Proof. intros H. unfold set_cell. rewrite length_array_set. lia. Qed.

Lemma fill_cell_is_set (a b : jsstring) (i : nat) (m : matrix_t) (j : nat) :
  exists v, fill_cell a b i m j = set_cell m i j v.
Proof.
  unfold fill_cell.
  destruct (jsstring_eqb (charAt b (i - 1)) (charAt a (j - 1))); eauto.
Qed.

(** The loops leave [b.length + 1] rows of [a.length + 1] entries. *)
Lemma getEditDistance_matrix_lengths (a b : jsstring) :
  List.length (getEditDistance_matrix a b) = S (List.length b) /\
  forall i, i <= List.length b ->
    List.length (array_get [] (getEditDistance_matrix a b) i) = S (List.length a).
Proof.
  set (la := List.length a). set (lb := List.length b).
  unfold getEditDistance_matrix. fold la lb.
  set (m1 := for_upto 0 lb (fun m i => array_set [] m i [i]) []).
  assert (H1 : List.length m1 = S lb /\
               forall k, k < S lb -> List.length (array_get [] m1 k) = 1).
  { apply (for_upto_invariant
             (fun n m => List.length m = n /\
                         forall k, k < n -> List.length (array_get [] m k) = 1));
      [lia|split; [reflexivity|intros; lia]|].
    intros n m _ [IHl IHr]. split.
    - rewrite length_array_set. lia.
    - intros k Hk. destruct (Nat.eq_dec n k) as [->|Hn].
      + rewrite array_get_set_same. reflexivity.
      + rewrite array_get_set_other by exact Hn. apply IHr. lia. }
  destruct H1 as [H1l H1r].
  set (m2 := for_upto 0 la (fun m j => set_cell m 0 j j) m1).
  assert (H2 : List.length m2 = S lb /\
               List.length (array_get [] m2 0) = Nat.max 1 (S la) /\
               forall k, 1 <= k <= lb -> List.length (array_get [] m2 k) = 1).
  { apply (for_upto_invariant
             (fun n m => List.length m = S lb /\
                         List.length (array_get [] m 0) = Nat.max 1 n /\
                         forall k, 1 <= k <= lb ->
                                   List.length (array_get [] m k) = 1)); [lia| |].
    - split; [exact H1l|split].
      + rewrite H1r by lia. reflexivity.
      + intros k Hk. apply H1r. lia.
    - intros n m _ (IHl & IH0 & IHr). split; [|split].
      + rewrite length_set_cell; lia.
      + rewrite row_set_cell_same, length_array_set, IH0. lia.
      + intros k Hk. rewrite row_set_cell_other by lia. apply IHr. exact Hk. }
  destruct H2 as (H2l & H20 & H2r).
  pose (rows := fun (r : nat) (m : matrix_t) =>
          List.length m = S lb /\
          (forall k, k < r -> k <= lb -> List.length (array_get [] m k) = S la) /\
          (forall k, r <= k <= lb -> List.length (array_get [] m k) = 1)).
  assert (H3 : rows (S lb)
                 (for_upto 1 lb (fun m i => for_upto 1 la (fill_cell a b i) m) m2)).
  { apply (for_upto_invariant rows); [lia| |].
    - split; [exact H2l|split].
      + intros k Hk _. assert (k = 0) by lia. subst k. rewrite H20. lia.
      + intros k Hk. apply H2r. lia.
    - intros r m Hr (IHl & IHdone & IHtodo).
      pose (row := fun (c : nat) (m' : matrix_t) =>
              List.length m' = S lb /\
              (forall k, k < r -> k <= lb ->
                         List.length (array_get [] m' k) = S la) /\
              List.length (array_get [] m' r) = c /\
              (forall k, r < k <= lb -> List.length (array_get [] m' k) = 1)).
      assert (Hin : row (S la) (for_upto 1 la (fill_cell a b r) m)).
      { apply (for_upto_invariant row); [lia| |].
        - split; [exact IHl|split; [exact IHdone|split]].
          + apply IHtodo. lia.
          + intros k Hk. apply IHtodo. lia.
        - intros c m' Hc (Il & Idone & Icur & Itodo).
          destruct (fill_cell_is_set a b r m' c) as [v ->].
          split; [|split; [|split]].
          + rewrite length_set_cell; lia.
          + intros k Hk Hk'. rewrite row_set_cell_other by lia. apply Idone; lia.
          + rewrite row_set_cell_same, length_array_set, Icur. lia.
          + intros k Hk. rewrite row_set_cell_other by lia. apply Itodo. lia. }
      destruct Hin as (Il & Idone & Icur & Itodo).
      split; [exact Il|split].
      + intros k Hk Hk'. destruct (Nat.eq_dec k r) as [->|Hne];
          [exact Icur|apply Idone; lia].
      + intros k Hk. apply Itodo. lia. }
  destruct H3 as (H3l & H3done & _).
  split; [exact H3l|]. intros i Hi. apply H3done; lia.
Qed.

(** X5.  The grid the three loops build is the full table of the
    recurrence: [b.length + 1] rows of [a.length + 1] cells, row [i]
    holding the cells [[i][0]] to [[i][a.length]], with no hole left and
    nothing written outside. *)
Theorem getEditDistance_matrix_table (a b : jsstring) :
  getEditDistance_matrix a b =
  map (fun i => map (recurrence a b i) (seq 0 (S (List.length a))))
      (seq 0 (S (List.length b))).
Proof.
  destruct (getEditDistance_matrix_lengths a b) as [Hl Hr].
  apply (nth_ext _ _ [] (map (recurrence a b 0) (seq 0 (S (List.length a))))).
  - rewrite length_map, length_seq. exact Hl.
  - intros i Hi. rewrite Hl in Hi.
    rewrite (map_nth (fun i => map (recurrence a b i) (seq 0 (S (List.length a))))).
    rewrite seq_nth by exact Hi. simpl Nat.add.
    apply (nth_ext _ _ 0 (recurrence a b i 0)).
    + rewrite length_map, length_seq. apply (Hr i). lia.
    + intros j Hj. change (nth i (getEditDistance_matrix a b) [])
        with (array_get [] (getEditDistance_matrix a b) i) in Hj.
      rewrite (Hr i) in Hj by lia.
      rewrite (map_nth (recurrence a b i)), seq_nth by exact Hj. simpl Nat.add.
      apply (getEditDistance_matrix_cells a b i j); lia.
Qed.


(** * Further properties of the matcher *)

(** ** Case *)

Lemma truthy_VStr_lowered (s : jsstring) :
  truthy (VStr (toLowerCase s)) = truthy (VStr s).
Proof.
  destruct (truthy (VStr s)) eqn:H.
  - apply truthy_VStr. apply toLowerCase_nonempty. apply truthy_VStr. exact H.
  - destruct s; [reflexivity|discriminate].
Qed.

(** X6.  A case-insensitive search does not see the case of its input:
    two inputs with the same lower-cased form give the same outcome. *)
Theorem didYouMean_ignores_input_case (fl : Q -> Q) (cfg : config)
    (s1 s2 : jsstring) (list : list value) (key : option jsstring) :
  caseSensitive cfg = false ->
  toLowerCase s1 = toLowerCase s2 ->
  didYouMean fl cfg (Some s1) list key = didYouMean fl cfg (Some s2) list key.
Proof.
  intros Hcs H.
  assert (Ht : truthy (VStr s1) = truthy (VStr s2)).
  { rewrite <- (truthy_VStr_lowered s1), H. apply truthy_VStr_lowered. }
  unfold didYouMean. rewrite Ht, Hcs. simpl negb. cbv iota. rewrite H.
  reflexivity.
Qed.

Lemma didYouMean_ignores_input_case_witness :
  didYouMean no_rounding defaults (Some (js "InsArGRM")) readme_list None =
  didYouMean no_rounding defaults (Some (js "insargrm")) readme_list None.
Proof.
  apply (didYouMean_ignores_input_case no_rounding defaults
           (js "InsArGRM") (js "insargrm") readme_list None).
  - reflexivity.
  - reflexivity.
Defined.

Lemma extract_no_key (key : option jsstring) (item : value) :
  key_given key = false -> extract key item = Ok item.
Proof.
  unfold key_given, extract. destruct key as [k|]; [|reflexivity].
  intros ->. reflexivity.
Qed.

Lemma scan_step_lowered_candidate (cfg : config) (key : option jsstring)
    (str : jsstring) (st : state) (c : jsstring) :
  caseSensitive cfg = false ->
  key_given key = false ->
  scan_step cfg key str st (VStr (toLowerCase c)) =
  scan_step cfg key str st (VStr c).
Proof.
  intros Hcs Hk. unfold scan_step. rewrite !extract_no_key by exact Hk.
  rewrite Hcs, Hk. unfold bind at 1 3. rewrite truthy_VStr_lowered.
  simpl. rewrite toLowerCase_idempotent. reflexivity.
Qed.

(** X7.  Nor does it see the case of the candidates: over a list of
    strings, lower-casing every candidate beforehand changes nothing. *)
Theorem didYouMean_ignores_candidate_case (fl : Q -> Q) (cfg : config)
    (str : option jsstring) (cs : list jsstring) (key : option jsstring) :
  caseSensitive cfg = false ->
  key_given key = false ->
  didYouMean fl cfg str (map VStr (map toLowerCase cs)) key =
  didYouMean fl cfg str (map VStr cs) key.
Proof.
  intros Hcs Hk.
  assert (Hscan : forall s st,
             scan cfg key s (map VStr (map toLowerCase cs)) st =
             scan cfg key s (map VStr cs) st).
  { intros s. induction cs as [|c cs IH]; intros st; [reflexivity|].
    simpl map. simpl scan.
    rewrite scan_step_lowered_candidate by assumption.
    destruct (scan_step cfg key s st (VStr c)); simpl;
      [apply IH|reflexivity|reflexivity]. }
  unfold didYouMean. destruct str as [s|]; [|reflexivity].
  destruct (negb (truthy (VStr s))); [reflexivity|].
  cbv zeta. rewrite Hscan. reflexivity.
Qed.

Lemma didYouMean_ignores_candidate_case_witness :
  didYouMean no_rounding defaults (Some (js "insargrm"))
    (map VStr (map toLowerCase [js "Resume"; js "TWITTER"; js "InstaGram"])) None =
  didYouMean no_rounding defaults (Some (js "insargrm"))
    (map VStr [js "Resume"; js "TWITTER"; js "InstaGram"]) None.
Proof.
  apply (didYouMean_ignores_candidate_case no_rounding defaults
           (Some (js "insargrm")) [js "Resume"; js "TWITTER"; js "InstaGram"] None).
  - reflexivity.
  - reflexivity.
Defined.

(** ** Options that are not read *)

Lemma scan_step_options (cfg cfg' : config) (key : option jsstring)
    (str : jsstring) (st : state) (item : value) :
  caseSensitive cfg = caseSensitive cfg' ->
  key_given key && returnWinningObject cfg =
  key_given key && returnWinningObject cfg' ->
  scan_step cfg key str st item = scan_step cfg' key str st item.
Proof.
  intros H1 H2. unfold scan_step. rewrite H1, H2. reflexivity.
Qed.

Lemma scan_options (cfg cfg' : config) (key : option jsstring)
    (str : jsstring) (items : list value) :
  caseSensitive cfg = caseSensitive cfg' ->
  key_given key && returnWinningObject cfg =
  key_given key && returnWinningObject cfg' ->
  forall st, scan cfg key str items st = scan cfg' key str items st.
Proof.
  intros H1 H2. induction items as [|a items IH]; intros st; simpl;
    [reflexivity|].
  rewrite (scan_step_options cfg cfg') by assumption.
  destruct (scan_step cfg' key str st a); simpl;
    [apply IH|reflexivity|reflexivity].
Qed.

Lemma didYouMean_options (fl : Q -> Q) (cfg cfg' : config) (str : option jsstring)
    (list : list value) (key : option jsstring) :
  threshold cfg = threshold cfg' ->
  caseSensitive cfg = caseSensitive cfg' ->
  key_given key && returnWinningObject cfg =
  key_given key && returnWinningObject cfg' ->
  didYouMean fl cfg str list key = didYouMean fl cfg' str list key.
Proof.
  intros H0 H1 H2. unfold didYouMean. destruct str as [s|]; [|reflexivity].
  destruct (negb (truthy (VStr s))); [reflexivity|].
  cbv zeta. rewrite H0, H1, (scan_options cfg cfg') by assumption. reflexivity.
Qed.

(** X8.  The option [nullResultValue] is never read: whatever it is set
    to, every call has the same outcome. *)
Theorem nullResultValue_is_never_read (fl : Q -> Q) (cfg : config) (v : value)
    (str : option jsstring) (list : list value) (key : option jsstring) :
  didYouMean fl (set_nullResultValue v cfg) str list key =
  didYouMean fl cfg str list key.
Proof. apply didYouMean_options; reflexivity. Qed.

(** X9.  Without a key the option [returnWinningObject] has no effect, as
    the header of the source says of lists of strings. *)
Theorem returnWinningObject_needs_a_key (fl : Q -> Q) (cfg : config) (b : bool)
    (str : option jsstring) (list : list value) (key : option jsstring) :
  key_given key = false ->
  didYouMean fl (set_returnWinningObject b cfg) str list key =
  didYouMean fl cfg str list key.
Proof.
  intros Hk. apply didYouMean_options; try reflexivity.
  rewrite Hk. reflexivity.
Qed.

Lemma returnWinningObject_needs_a_key_witness :
  didYouMean no_rounding (set_returnWinningObject true defaults)
    (Some (js "insargrm")) readme_list None =
  didYouMean no_rounding defaults (Some (js "insargrm")) readme_list None.
Proof.
  apply (returnWinningObject_needs_a_key no_rounding defaults true
           (Some (js "insargrm")) readme_list None).
  reflexivity.
Defined.

(** ** What one item contributes *)

(** Whether an item of a case-insensitive search raises depends neither
    on the other options nor on the input. *)
Lemma examine_ok_transfer (cfg cfg' : config) (key : option jsstring)
    (s s' : jsstring) (x : value) :
  caseSensitive cfg = false ->
  caseSensitive cfg' = false ->
  (exists r, examine cfg key s x = Ok r) ->
  exists r', examine cfg' key s' x = Ok r'.
Proof.
  intros Hcs Hcs'. unfold examine. rewrite Hcs, Hcs'.
  destruct (extract key x) as [v|e|]; simpl; try (intros [r H]; discriminate).
  destruct (negb (truthy v)); [eauto|].
  destruct v; simpl; intros [r H]; try discriminate. eauto.
Qed.



Lemma scan_ok_examine (cfg : config) (key : option jsstring) (s : jsstring)
    (items : list value) :
  forall st st',
    scan cfg key s items st = Ok st' ->
    Forall (fun x => exists r, examine cfg key s x = Ok r) items.
Proof.
  induction items as [|a items IH]; intros st st' H; [constructor|].
  simpl in H. rewrite scan_step_examine in H.
  destruct (examine cfg key s a) as [r|e|] eqn:E; simpl in H; try discriminate.
  constructor; [eauto|].
  destruct r as [[v w]|]; [destruct (beats v (winningVal st))|];
    eapply IH; exact H.
Qed.

Lemma didYouMean_Ok_examined (fl : Q -> Q) (cfg : config) (str : jsstring)
    (list : list value) (key : option jsstring) (w : value) :
  str <> [] ->
  didYouMean fl cfg (Some str) list key = Ok w ->
  Forall (fun x => exists r, examine cfg key (normalize cfg str) x = Ok r) list.
Proof.
  intros Hs H. rewrite didYouMean_nonempty in H by exact Hs.
  destruct (scan cfg key (normalize cfg str) list _) as [st|e|] eqn:E;
    simpl in H; try discriminate.
  eapply scan_ok_examine. exact E.
Qed.

(** ** What is returned *)

(** X10.  For a non-empty input a case-insensitive search never returns
    a falsy value: what it returns is a non-empty string or an element of
    the list, so the [false] of an empty input cannot be mistaken for a
    match. *)
Theorem didYouMean_returns_truthy (fl : Q -> Q) (cfg : config) (str : jsstring)
    (list : list value) (key : option jsstring) (w : value) :
  caseSensitive cfg = false ->
  str <> [] ->
  didYouMean fl cfg (Some str) list key = Ok w ->
  truthy w = true /\
  (In w list \/ exists c, w = VStr c /\ c <> []).
Proof.
  intros Hcs Hs H.
  destruct (didYouMean_Ok_inv _ _ _ _ _ _ Hs H)
    as (l1 & item & l2 & val & -> & Hex & _).
  split; [exact (examine_truthy _ _ _ _ _ _ Hex)|].
  destruct (examine_insensitive _ _ _ _ _ _ Hcs Hex) as [c (_ & Hc & _ & ->)].
  unfold winner_of. destruct (key_given key && returnWinningObject cfg).
  - left. apply in_or_app. right. left. reflexivity.
  - right. exists (normalize cfg c). split; [reflexivity|].
    apply normalize_nonempty. exact Hc.
Qed.

Lemma didYouMean_returns_truthy_witness :
  truthy (VStr (js "instagram")) = true /\
  (In (VStr (js "instagram")) readme_list \/
   exists c, VStr (js "instagram") = VStr c /\ c <> []).
Proof.
  apply (didYouMean_returns_truthy no_rounding defaults (js "insargrm")
           readme_list None (VStr (js "instagram"))).
  - reflexivity.
  - nonempty.
  - vm_compute. reflexivity.
Defined.

(** X11.  In a case-insensitive search with a key, the record that
    [returnWinningObject] makes the call return is an element of the list
    whose key holds a non-empty string, and the same call with the option
    off returns that string, lower-cased. *)
Theorem winning_object_holds_the_winning_string (fl : Q -> Q) (cfg : config)
    (str : jsstring) (list : list value) (key : option jsstring) (w : value) :
  caseSensitive cfg = false ->
  key_given key = true ->
  str <> [] ->
  didYouMean fl (set_returnWinningObject true cfg) (Some str) list key = Ok w ->
  In w list /\
  exists c, extract key w = Ok (VStr c) /\ c <> [] /\
            didYouMean fl (set_returnWinningObject false cfg) (Some str) list key
            = Ok (VStr (toLowerCase c)).
Proof.
  intros Hcase Hk Hs H.
  set (cfgT := set_returnWinningObject true cfg) in *.
  set (cfgF := set_returnWinningObject false cfg).
  assert (HcT : caseSensitive cfgT = false) by exact Hcase.
  assert (HcF : caseSensitive cfgF = false) by exact Hcase.
  assert (Hn : normalize cfgT str = normalize cfgF str) by reflexivity.
  assert (Hi : initial_best fl cfgT str = initial_best fl cfgF str) by reflexivity.
  assert (Htr : forall x v w',
             examine cfgF key (normalize cfgF str) x = Ok (Some (v, w')) ->
             exists w'', examine cfgT key (normalize cfgT str) x = Ok (Some (v, w''))).
  { intros x v w' Hx.
    destruct (examine_insensitive _ _ _ _ _ _ HcF Hx) as [c (He & Hc & Hd & _)].
    exists (winner_of cfgT key x (normalize cfgT c)).
    rewrite (examine_string _ _ _ _ _ He Hc), Hd. reflexivity. }
  pose proof (didYouMean_Ok_examined _ _ _ _ _ _ Hs H) as Hok.
  destruct (didYouMean_Ok_inv _ _ _ _ _ _ Hs H)
    as (l1 & item & l2 & val & -> & Hex & Hb & Hl1 & Hl2).
  destruct (examine_insensitive _ _ _ _ _ _ HcT Hex) as [c (Hx & Hc & Hd & Hw)].
  assert (Hwi : w = item).
  { rewrite Hw. unfold winner_of. rewrite Hk. reflexivity. }
  clear Hw. subst w.
  split; [apply in_or_app; right; left; reflexivity|].
  exists c. split; [exact Hx|split; [exact Hc|]].
  apply (didYouMean_first_least_examined fl cfgF str key l1 l2 item val).
  - exact Hs.
  - eapply Forall_impl; [|exact Hok]. intros x.
    apply examine_ok_transfer; assumption.
  - rewrite (examine_string _ _ _ _ _ Hx Hc), Hd. unfold winner_of, normalize.
    simpl. rewrite andb_false_r, Hcase. reflexivity.
  - rewrite <- Hi. exact Hb.
  - intros x v w' Hin HxF _.
    destruct (Htr x v w' HxF) as [w'' HxT].
    apply in_app_or in Hin. destruct Hin as [Hin|[<-|Hin]].
    + specialize (Hl1 _ _ _ Hin HxT). lia.
    + rewrite Hex in HxT. injection HxT as -> _. lia.
    + exact (Hl2 _ _ _ Hin HxT).
  - intros x v w' Hin HxF.
    destruct (Htr x v w' HxF) as [w'' HxT].
    specialize (Hl1 _ _ _ Hin HxT). lia.
Qed.

Lemma winning_object_holds_the_winning_string_witness :
  In (VObj [(js "id", VStr (js "Instagram"))])
     [VObj [(js "id", VStr (js "resume"))]; VObj [(js "id", VStr (js "Instagram"))]] /\
  exists c, extract (Some (js "id")) (VObj [(js "id", VStr (js "Instagram"))])
            = Ok (VStr c) /\
            c <> [] /\
            didYouMean no_rounding (set_returnWinningObject false defaults)
              (Some (js "insargrm"))
              [VObj [(js "id", VStr (js "resume"))];
               VObj [(js "id", VStr (js "Instagram"))]]
              (Some (js "id"))
            = Ok (VStr (toLowerCase c)).
Proof.
  apply (winning_object_holds_the_winning_string no_rounding defaults
           (js "insargrm")
           [VObj [(js "id", VStr (js "resume"))];
            VObj [(js "id", VStr (js "Instagram"))]]
           (Some (js "id")) (VObj [(js "id", VStr (js "Instagram"))])).
  - reflexivity.
  - reflexivity.
  - nonempty.
  - vm_compute. reflexivity.
Defined.

(** ** The threshold *)

(** A match survives any change of threshold and rounding that lets its
    distance through. *)
Lemma didYouMean_same_winner (fl fl' : Q -> Q) (cfg : config) (t' : option Q)
    (str : jsstring) (list : list value) (key : option jsstring) (w : value) :
  str <> [] ->
  didYouMean fl cfg (Some str) list key = Ok w ->
  (forall val, beats val (initial_best fl cfg str) = true ->
               beats val (initial_best fl' (set_threshold t' cfg) str) = true) ->
  didYouMean fl' (set_threshold t' cfg) (Some str) list key = Ok w.
Proof.
  intros Hs H Hb.
  pose proof (didYouMean_Ok_examined _ _ _ _ _ _ Hs H) as Hok.
  destruct (didYouMean_Ok_inv _ _ _ _ _ _ Hs H)
    as (l1 & item & l2 & val & -> & Hex & Hbv & Hl1 & Hl2).
  apply (didYouMean_first_least_examined fl' (set_threshold t' cfg) str key
           l1 l2 item val w); auto.
  - intros x v w' Hin Hx _.
    apply in_app_or in Hin. destruct Hin as [Hin|[<-|Hin]].
    + specialize (Hl1 _ _ _ Hin Hx). lia.
    + change (examine cfg key (normalize cfg str) item = Ok (Some (v, w'))) in Hx.
      rewrite Hex in Hx. injection Hx as -> _. lia.
    + exact (Hl2 _ _ _ Hin Hx).
  - intros x v w' Hin Hx. specialize (Hl1 _ _ _ Hin Hx). lia.
Qed.

(** X12.  Raising the threshold, or unsetting it, keeps a match: what a
    call returns under a threshold it returns under every greater one and
    under none.  The rounding of the product is any monotone one. *)
Theorem raising_the_threshold_keeps_the_match (fl : Q -> Q) (cfg : config)
    (str : jsstring) (list : list value) (key : option jsstring) (t1 : Q) (w : value) :
  (forall q q' : Q, (q <= q')%Q -> (fl q <= fl q')%Q) ->
  threshold cfg = Some t1 ->
  str <> [] ->
  didYouMean fl cfg (Some str) list key = Ok w ->
  didYouMean fl (set_threshold None cfg) (Some str) list key = Ok w /\
  forall t2 : Q, (t1 <= t2)%Q ->
    didYouMean fl (set_threshold (Some t2) cfg) (Some str) list key = Ok w.
Proof.
  intros Hfl Ht Hs H. split.
  - apply (didYouMean_same_winner fl fl cfg None str list key w Hs H).
    intros val _. reflexivity.
  - intros t2 Hle.
    apply (didYouMean_same_winner fl fl cfg (Some t2) str list key w Hs H).
    intros val. unfold initial_best. rewrite Ht. simpl.
    rewrite !Qltb_lt. intros Hv.
    eapply Qlt_le_trans; [exact Hv|].
    apply Hfl. apply Qmult_le_compat_r; [exact Hle|].
    change 0%Q with (Qnat 0). apply Qnat_le. lia.
Qed.

Lemma raising_the_threshold_keeps_the_match_witness :
  didYouMean no_rounding (set_threshold None defaults)
    (Some (js "insargrm")) readme_list None = Ok (VStr (js "instagram")) /\
  forall t2 : Q, (4 # 10 <= t2)%Q ->
    didYouMean no_rounding (set_threshold (Some t2) defaults)
      (Some (js "insargrm")) readme_list None = Ok (VStr (js "instagram")).
Proof.
  apply (raising_the_threshold_keeps_the_match no_rounding defaults
           (js "insargrm") readme_list None (4 # 10) (VStr (js "instagram"))).
  - intros q q' Hq. exact Hq.
  - reflexivity.
  - nonempty.
  - vm_compute. reflexivity.
Defined.

(** An item measured at distance zero holds the input itself, once both
    are normalized. *)
Lemma measured_zero (cfg : config) (key : option jsstring) (str : jsstring)
    (item : value) (w : value) :
  str <> [] ->
  measured cfg key str item 0 w ->
  exists c, extract key item = Ok (VStr c) /\ c <> [] /\
            normalize cfg c = normalize cfg str /\
            w = winner_of cfg key item (normalize cfg str).
Proof.
  intros Hs (v & v' & He & Ht & E1 & E2 & Hw).
  assert (Hn : Nat.eqb (List.length (normalize cfg str)) 0 = false).
  { apply (normalize_nonempty cfg) in Hs.
    destruct (normalize cfg str); [congruence|reflexivity]. }
  destruct v' as [| |b|q|s|props|elems]; unfold getEditDistance_call in E2;
    rewrite ?Hn in E2; try discriminate.
  - injection E2 as E2. apply getEditDistance_zero in E2.
    assert (Hv : exists c, v = VStr c /\ s = normalize cfg c).
    { unfold normalize. destruct (negb (caseSensitive cfg)).
      - destruct v; try discriminate. injection E1 as <-. eauto.
      - injection E1 as ->. eauto. }
    destruct Hv as (c & -> & ->). exists c. apply truthy_VStr in Ht.
    repeat split; auto. rewrite Hw, E2. reflexivity.
  - destruct (get_prop (VObj props) (js "length")) as [len|e|];
      unfold bind in E2; try discriminate.
    destruct (loose_eq_zero len) as [[]|e|]; try discriminate.
    injection E2 as E2. apply Nat.eqb_neq in Hn. congruence.
  - destruct (Nat.eqb (List.length elems) 0); [|discriminate].
    injection E2 as E2. apply Nat.eqb_neq in Hn. congruence.
Qed.

(** X13.  When the threshold times the length of the input as it is
    compared is at most one, only exact matches are returned: the winning
    candidate equals the input once both are normalized.  With the
    default threshold this is every input that lower-cases to one or two
    code units.  The rounding [fl] lifts nothing over [1]. *)
Theorem short_input_matches_exactly (fl : Q -> Q) (cfg : config)
    (str : jsstring) (list : list value) (key : option jsstring) (t : Q) (w : value) :
  (forall q : Q, (q <= 1)%Q -> (fl q <= 1)%Q) ->
  threshold cfg = Some t ->
  (t * Qnat (List.length (normalize cfg str)) <= 1)%Q ->
  str <> [] ->
  didYouMean fl cfg (Some str) list key = Ok w ->
  exists item c,
    In item list /\ extract key item = Ok (VStr c) /\
    normalize cfg c = normalize cfg str /\
    w = winner_of cfg key item (normalize cfg str).
Proof.
  intros Hfl Ht Hone Hs H.
  destruct (didYouMean_Ok_inv _ _ _ _ _ _ Hs H)
    as (l1 & item & l2 & val & -> & Hex & Hb & _).
  apply beats_initial_qualifies in Hb. specialize (Hb t Ht).
  assert (Hv : val = 0).
  { assert (Hlt : (Qnat val < Qnat 1)%Q).
    { eapply Qlt_le_trans; [exact Hb|]. apply Hfl. exact Hone. }
    apply Qnat_lt in Hlt. lia. }
  subst val. apply examine_measured in Hex.
  destruct (measured_zero _ _ _ _ _ Hs Hex) as (c & Hx & _ & Hn & Hw).
  exists item, c. split; [apply in_or_app; right; left; reflexivity|]. auto.
Qed.

Lemma short_input_matches_exactly_witness :
  exists item c,
    In item [VStr (js "ok"); VStr (js "Ox"); VStr (js "OX")] /\
    extract None item = Ok (VStr c) /\
    normalize defaults c = normalize defaults (js "ox") /\
    VStr (js "ox") = winner_of defaults None item (normalize defaults (js "ox")).
Proof.
  apply (short_input_matches_exactly no_rounding defaults (js "ox")
           [VStr (js "ok"); VStr (js "Ox"); VStr (js "OX")] None (4 # 10)
           (VStr (js "ox"))).
  - intros q Hq. exact Hq.
  - reflexivity.
  - vm_compute. discriminate.
  - nonempty.
  - vm_compute. reflexivity.
Defined.

(** X14.  An exact match wins: over well-formed candidates, the first
    candidate equal to the input once both are normalized is returned,
    provided the distance zero qualifies (no threshold, or a bound above
    zero). *)
Theorem exact_match_is_returned (fl : Q -> Q) (cfg : config) (str : jsstring)
    (key : option jsstring) (l1 l2 : list value) (item : value) (c : jsstring) :
  str <> [] ->
  Forall (well_formed key) (l1 ++ item :: l2) ->
  extract key item = Ok (VStr c) ->
  normalize cfg c = normalize cfg str ->
  qualifies fl cfg str 0 ->
  (forall x c', In x l1 -> extract key x = Ok (VStr c') ->
                normalize cfg c' <> normalize cfg str) ->
  didYouMean fl cfg (Some str) (l1 ++ item :: l2) key =
  Ok (winner_of cfg key item (normalize cfg str)).
Proof.
  intros Hs Hwf Hx Hn Hq Hfirst.
  assert (Hc : c <> []).
  { intros ->. apply (normalize_nonempty cfg str Hs). rewrite <- Hn.
    unfold normalize. destruct (negb (caseSensitive cfg)); reflexivity. }
  assert (Hall : forall x, In x (l1 ++ item :: l2) -> well_formed key x)
    by (apply Forall_forall; exact Hwf).
  apply (didYouMean_first_least fl cfg str key l1 l2 item 0); auto.
  - rewrite (examine_string _ _ _ _ _ Hx Hc), Hn, getEditDistance_same.
    reflexivity.
  - apply beats_initial_qualifies. exact Hq.
  - intros; lia.
  - intros x v w' Hin Hex Hv. subst v.
    assert (Hin' : In x (l1 ++ item :: l2)) by (apply in_or_app; auto).
    destruct (examine_well_formed _ _ _ _ _ _ (Hall x Hin') Hex)
      as [c' (Hx' & _ & Hd & _)].
    symmetry in Hd. apply getEditDistance_zero in Hd.
    apply (Hfirst x c' Hin Hx'). auto.
Qed.

Lemma exact_match_is_returned_witness :
  didYouMean no_rounding defaults (Some (js "Twitter"))
    ([VStr (js "twitterr")] ++ VStr (js "TWITTER") :: [VStr (js "twitter")]) None =
  Ok (winner_of defaults None (VStr (js "TWITTER"))
        (normalize defaults (js "Twitter"))).
Proof.
  apply (exact_match_is_returned no_rounding defaults (js "Twitter") None
           [VStr (js "twitterr")] [VStr (js "twitter")] (VStr (js "TWITTER"))
           (js "TWITTER")).
  - nonempty.
  - repeat (apply Forall_cons;
            [right; eexists; (split; [reflexivity|nonempty])|]).
    apply Forall_nil.
  - reflexivity.
  - reflexivity.
  - intros t Ht. injection Ht as <-. vm_compute. reflexivity.
  - intros x c' Hin Hx. simpl in Hin. destruct Hin as [<-|[]].
    injection Hx as <-. vm_compute. discriminate.
Defined.




(** X19.  With the default options a returned value is the lower-cased
    string of a candidate whose distance to the lower-cased input is
    below 40% of the length of the lower-cased input.  Strings are within
    the length limit of the language, and the rounding [fl] is monotone
    and exact on the integers up to [2^53]. *)
Theorem defaults_return_within_forty_percent (fl : Q -> Q) (str : jsstring)
    (list : list value) (key : option jsstring) (w : value) :
  (forall q1 q2 : Q, (q1 <= q2)%Q -> (fl q1 <= fl q2)%Q) ->
  (forall k : nat, (Z.of_nat k <= 2 ^ 53)%Z -> (fl (Qnat k) == Qnat k)%Q) ->
  str <> [] ->
  within_limit (toLowerCase str) ->
  (forall item c, In item list -> extract key item = Ok (VStr c) ->
                  within_limit (toLowerCase c)) ->
  didYouMean fl defaults (Some str) list key = Ok w ->
  exists item c,
    In item list /\ extract key item = Ok (VStr c) /\
    w = VStr (toLowerCase c) /\
    5 * getEditDistance (toLowerCase str) (toLowerCase c)
    < 2 * List.length (toLowerCase str).
Proof.
  intros Hmono Hexact Hs Hstr Hcand H.
  destruct (didYouMean_Ok_inv _ _ _ _ _ _ Hs H)
    as (l1 & item & l2 & val & -> & Hex & Hb & _).
  assert (Hin : In item (l1 ++ item :: l2))
    by (apply in_or_app; right; left; reflexivity).
  apply beats_initial_qualifies in Hb. specialize (Hb (4 # 10) eq_refl).
  assert (Hlt : (Qnat val < (4 # 10) * Qnat (List.length (toLowerCase str)))%Q).
  { apply (rounding_keeps_the_bound fl _ val Hmono Hexact); [|exact Hb].
    apply (measured_within_limit defaults key str item val w Hstr).
    - intros c. apply Hcand. exact Hin.
    - apply examine_measured. exact Hex. }
  destruct (examine_insensitive defaults key str item val w eq_refl Hex)
    as [c (Hx & _ & Hd & Hw)].
  exists item, c. split; [exact Hin|]. split; [exact Hx|split].
  - rewrite Hw. unfold winner_of. simpl. rewrite andb_false_r. reflexivity.
  - change (normalize defaults str) with (toLowerCase str) in Hd.
    change (normalize defaults c) with (toLowerCase c) in Hd.
    rewrite <- Hd. unfold Qlt, Qnat, Qmult, inject_Z in Hlt.
    cbn [Qnum Qden] in Hlt. lia.
Qed.

Lemma defaults_return_within_forty_percent_witness :
  exists item c,
    In item readme_list /\ extract None item = Ok (VStr c) /\
    VStr (js "instagram") = VStr (toLowerCase c) /\
    5 * getEditDistance (toLowerCase (js "insargrm")) (toLowerCase c)
    < 2 * List.length (toLowerCase (js "insargrm")).
Proof.
  apply (defaults_return_within_forty_percent no_rounding (js "insargrm")
           readme_list None (VStr (js "instagram"))).
  - intros q1 q2 Hq. exact Hq.
  - intros k Hk. reflexivity.
  - nonempty.
  - vm_compute. discriminate.
  - intros item c Hin He. simpl in Hin.
    destruct Hin as [<-|[<-|[<-|[<-|[]]]]]; injection He as <-;
      vm_compute; discriminate.
  - vm_compute. reflexivity.
Defined.

(** ** Exceptions *)

(** X18.  With a key, a [null] or [undefined] element of the list makes
    the call raise a TypeError as soon as the pass reaches it: reading a
    property off it is the first thing the loop does. *)
Theorem null_element_with_key_raises (fl : Q -> Q) (cfg : config) (str : jsstring)
    (key : option jsstring) (l1 l2 : list value) (item : value) :
  key_given key = true ->
  str <> [] ->
  Forall (well_formed key) l1 ->
  item = VNull \/ item = VUndefined ->
  didYouMean fl cfg (Some str) (l1 ++ item :: l2) key = Throw TypeError.
Proof.
  intros Hk Hs Hwf Hitem.
  rewrite didYouMean_nonempty by exact Hs. rewrite scan_app.
  destruct (scan_total cfg key (normalize cfg str) l1
              (well_formed_all_examined _ _ _ _ Hwf)
              {| winner := None; winningVal := initial_best fl cfg str |})
    as [st1 E].
  rewrite E. simpl. unfold scan_step, extract.
  destruct key as [k|]; [|discriminate]. simpl in Hk. simpl. rewrite Hk.
  destruct Hitem as [->| ->]; reflexivity.
Qed.

Lemma null_element_with_key_raises_witness :
  didYouMean no_rounding defaults (Some (js "instagram"))
    ([VObj [(js "id", VStr (js "instagram"))]] ++ VNull ::
     [VObj [(js "id", VStr (js "twitter"))]])
    (Some (js "id")) = Throw TypeError.
Proof.
  apply (null_element_with_key_raises no_rounding defaults (js "instagram")
           (Some (js "id"))
           [VObj [(js "id", VStr (js "instagram"))]]
           [VObj [(js "id", VStr (js "twitter"))]] VNull).
  - reflexivity.
  - nonempty.
  - apply Forall_cons; [right; eexists; (split; [reflexivity|nonempty])|].
    apply Forall_nil.
  - left. reflexivity.
Defined.

Lemma non_string_candidate_raises_witness :
  didYouMean no_rounding defaults (Some (js "instagram"))
    ([VObj [(js "id", VStr (js "instagram"))]] ++
     VObj [(js "id", VObj [(js "length", VNum 0)])] :: [])
    (Some (js "id")) = Throw TypeError.
Proof.
  apply (non_string_candidate_raises no_rounding defaults (js "instagram")
           (Some (js "id"))
           [VObj [(js "id", VStr (js "instagram"))]] []
           (VObj [(js "id", VObj [(js "length", VNum 0)])])
           (VObj [(js "length", VNum 0)])).
  - nonempty.
  - apply Forall_cons; [right; eexists; (split; [reflexivity|nonempty])|].
    apply Forall_nil.
  - reflexivity.
  - reflexivity.
  - intros s. discriminate.
  - left. reflexivity.
Defined.

Lemma no_qualifying_candidate_raises_witness :
  didYouMean no_rounding defaults (Some (js "google plus")) readme_list None
  = Throw ReferenceError.
Proof.
  apply (no_qualifying_candidate_raises no_rounding defaults (js "google plus")
           readme_list None).
  - nonempty.
  - repeat (apply Forall_cons;
            [right; eexists; (split; [reflexivity|nonempty])|]).
    apply Forall_nil.
  - intros x c d w Hin (Hx & _ & -> & _) Hq.
    specialize (Hq (4 # 10) eq_refl).
    simpl in Hin. destruct Hin as [<-|[<-|[<-|[<-|[]]]]];
      injection Hx as <-; vm_compute in Hq; discriminate.
Defined.
